(** * drastic: argument/return contracts and declarative constructors

    A shallow embedding of [drastic/drastic.py].  Python objects live in an
    explicit [world] (the module-level toggle, the attribute namespaces of
    the classes, the attribute dictionaries of the instances); every
    function of the module that can raise or mutate is a computation in a
    small state-and-exception monad over that world. *)

From stdpp Require Import gmap strings list.
From Stdlib Require Import ZArith Ascii.

Open Scope string_scope.

(** ** Python values and types *)

(** A class is identified by its [__name__]; [tmro] lists the names of its
    proper ancestors in method-resolution order. *)
Record pytype := PyType { tname : string; tmro : list string }.

Definition object_t : pytype := PyType "object" [].
Definition NoneType : pytype := PyType "NoneType" ["object"].
Definition int_t : pytype := PyType "int" ["object"].
Definition bool_t : pytype := PyType "bool" ["int"; "object"].
Definition str_t : pytype := PyType "str" ["object"].
Definition list_t : pytype := PyType "list" ["object"].

(** Values.  [VInst cls ref] is an instance of a user-defined class whose
    attribute dictionary is stored in the world under [ref]. *)
Inductive val :=
| VNone
| VBool (b : bool)
| VInt (z : Z)
| VStr (s : string)
| VList (l : list Z)
| VInst (cls : pytype) (ref : nat).

(** [type(value)] *)
Definition type_of (v : val) : pytype :=
  match v with
  | VNone => NoneType
  | VBool _ => bool_t
  | VInt _ => int_t
  | VStr _ => str_t
  | VList _ => list_t
  | VInst cls _ => cls
  end.

(** [issubclass(c, d)] *)
Definition issubclass (c d : pytype) : bool :=
  bool_decide (tname c = tname d) || bool_decide (tname d ∈ tmro c).

(** [isinstance(value, types)] for a tuple of types; false on the empty
    tuple. *)
Definition isinstance (v : val) (types : list pytype) : bool :=
  existsb (issubclass (type_of v)) types.

(** An element of an annotation: a type, a string, or anything else
    ([None], a number, a nested tuple, ...). *)
Inductive annot :=
| AType (t : pytype)
| AStr (s : string)
| AOther.

(** What a parameter or the result is annotated with: one element, or a
    tuple of elements. *)
Inductive annotation :=
| ASingle (a : annot)
| ATuple (l : list annot).

(** [inspect.getfullargspec(func)], as far as the module reads it. *)
Record FullArgSpec := {
  args : list string;
  defaults : option (list val);
  annotations : gmap string annotation
}.

(** ** Exceptions *)

(** The two ways [check_consistency] fails, with the keywords its message
    interpolates. *)
Inductive annotation_error :=
| LocalIncompatible (incompatibles : list string)
| UsedOnce (error_keywords : list string).

Inductive exn :=
| ArgumentTypeError (func_name arg_name : string) (expected : list annot)
                    (received : pytype)
| ReturnTypeError (func_name : string) (expected : list annot)
                  (returned : pytype)
| AnnotationError (error : annotation_error)
| IndexError
| TypeError
| AttributeError
| OtherException (name : string).

(** [sep.join(l)] *)
Fixpoint join (sep : string) (l : list string) : string :=
  match l with
  | [] => ""
  | [x] => x
  | x :: l' => x +:+ sep +:+ join sep l'
  end.

(** ["', '".join(t.__name__ for t in expected if isinstance(t, type))] *)
Definition expected_types (expected : list annot) : string :=
  join "', '"
    (omap (λ a, match a with AType t => Some (tname t) | _ => None end)
          expected).

(** The message each exception of the module is built with. *)
Definition message (e : exn) : string :=
  match e with
  | ReturnTypeError func_name expected returned =>
      "Return type of function '" +:+ func_name +:+ "' is incorrect: "
      +:+ "expected '" +:+ expected_types expected +:+ "' but '"
      +:+ tname returned +:+ "' returned."
  | ArgumentTypeError func_name arg_name expected received =>
      "Argument '" +:+ arg_name +:+ "' of function '" +:+ func_name
      +:+ "' is incorrect: " +:+ "excepted '" +:+ expected_types expected
      +:+ "' but '" +:+ tname received +:+ "' received."
  | AnnotationError (LocalIncompatible incompatibles) =>
      "'local' is incompatible with '" +:+ join "', '" incompatibles +:+ "'."
  | AnnotationError (UsedOnce error_keywords) =>
      "'" +:+ join "', '" error_keywords +:+ "' should be used once."
  | IndexError => "IndexError"
  | TypeError => "TypeError"
  | AttributeError => "AttributeError"
  | OtherException name => name
  end.

(** ** The world and the monad *)

(** The functions the composer installs on a class. *)
Inductive method :=
| _bool | _int | _float | _str
| _len | _getitem | _setitem | _delitem | _iter | _reversed | _contains
| _eq | _ne | _lt | _le.

(** What a class attribute can hold. *)
Inductive cattr :=
| CMethod (m : method)
| CName (s : string)
| CNames (l : list string)
| CTrue
| CValue (v : val).

Record world := World {
  _enabled : bool;
  classes : gmap string (gmap string cattr);
  instances : gmap nat (gmap string val)
}.

Inductive outcome (A : Type) :=
| Return (a : A)
| Raise (e : exn).
Arguments Return {A} a.
Arguments Raise {A} e.

(** A computation over a state [S]: it returns or raises, and leaves a
    state behind in both cases. *)
Definition M (S A : Type) : Type := S → outcome A * S.

Definition ret {S A} (a : A) : M S A := λ s, (Return a, s).
Definition raise {S A} (e : exn) : M S A := λ s, (Raise e, s).
Definition bind {S A B} (m : M S A) (k : A → M S B) : M S B :=
  λ s, match m s with
       | (Return a, s') => k a s'
       | (Raise e, s') => (Raise e, s')
       end.

Notation "x <- m ;; k" := (bind m (λ x, k))
  (at level 100, m at next level, right associativity,
   format "x  <-  m  ;;  '/' k").
Notation "m ;;; k" := (bind m (λ _, k))
  (at level 100, right associativity, format "m  ;;;  '/' k").

(** A Python callable: positional arguments, keyword arguments, and
    whatever it does to the world. *)
Definition pyfun : Type := list val → list (string * val) → M world val.

Record function := {
  fn_name : string;
  fn_spec : FullArgSpec;
  fn_body : pyfun
}.

(** ** Disable/Enable *)

Definition disable (w : world) : world :=
  World false (classes w) (instances w).

Definition enable (w : world) : world :=
  World true (classes w) (instances w).

(** ** Utils *)

(** [_type_ok(value, expected)]: the types are the elements of [expected]
    that are types; ['nonable' in expected] looks for an element equal to
    that string. *)
Definition _type_ok (value : val) (expected : list annot) : bool :=
  let types :=
    omap (λ t, match t with AType t => Some t | _ => None end) expected in
  let nullable :=
    existsb (λ t, match t with
                  | AStr s => bool_decide (s = "nonable")
                  | _ => false
                  end) expected in
  isinstance value types
  || (nullable && match value with VNone => true | _ => false end).

(** [_to_tuple(value)] *)
Definition _to_tuple (value : annotation) : list annot :=
  match value with
  | ATuple l => l
  | ASingle a => [a]
  end.

(** ** @strict decorator *)

(** The loop over [zip(spec.args[i:], args[i:])]: the first annotated
    parameter whose value fails [_type_ok] raises. *)
Fixpoint check_positional (funcname : string) (spec : FullArgSpec)
    (pairs : list (string * val)) : outcome unit :=
  match pairs with
  | [] => Return ()
  | (name, value) :: pairs' =>
      match annotations spec !! name with
      | Some a =>
          let expected := _to_tuple a in
          if negb (_type_ok value expected)
          then Raise (ArgumentTypeError funcname name expected (type_of value))
          else check_positional funcname spec pairs'
      | None => check_positional funcname spec pairs'
      end
  end.

(** The parameters and values the loop pairs; [spec.args[0]] is read
    first, so an empty [spec.args] is an [IndexError]. *)
Definition positional_pairs (spec : FullArgSpec) (arguments : list val)
    : outcome (list (string * val)) :=
  match args spec with
  | [] => Raise IndexError
  | a0 :: _ =>
      let i := if bool_decide (a0 = "self") then 1 else 0 in
      Return (zip (drop i (args spec)) (drop i arguments))
  end.

(** The block under [# Arguments check]. *)
Definition arguments_check (funcname : string) (spec : FullArgSpec)
    (arguments : list val) : outcome unit :=
  if negb (bool_decide (length arguments = 0))
     && negb (bool_decide (args spec = ["self"]))
  then match positional_pairs spec arguments with
       | Return pairs => check_positional funcname spec pairs
       | Raise e => Raise e
       end
  else Return ().

(** The block under [# Return check]. *)
Definition return_check (funcname : string) (spec : FullArgSpec)
    (result : val) : outcome val :=
  match annotations spec !! "return" with
  | Some a =>
      let expected := _to_tuple a in
      if negb (_type_ok result expected)
      then Raise (ReturnTypeError funcname expected (type_of result))
      else Return result
  | None => Return result
  end.

(** [strict(func)] is the closure [checker]. *)
Definition strict (func : function) : pyfun := λ arguments kwargs w,
  if negb (_enabled w) then fn_body func arguments kwargs w
  else
    let funcname := fn_name func in
    let spec := fn_spec func in
    match arguments_check funcname spec arguments with
    | Raise e => (Raise e, w)
    | Return _ =>
        match fn_body func arguments kwargs w with
        | (Return result, w') => (return_check funcname spec result, w')
        | (Raise e, w') => (Raise e, w')
        end
    end.

(** ** @init decorator *)

(** [str.split()] with no separator, on ASCII text: runs of whitespace
    separate the words and no empty word is produced. *)
Definition is_space (a : ascii) : bool :=
  let n := nat_of_ascii a in
  ((9 <=? n)%nat && (n <=? 13)%nat) || ((28 <=? n)%nat && (n <=? 32)%nat).

Fixpoint split_from (word s : string) : list string :=
  match s with
  | EmptyString => match word with EmptyString => [] | _ => [word] end
  | String a s' =>
      if is_space a
      then match word with
           | EmptyString => split_from "" s'
           | _ => word :: split_from "" s'
           end
      else split_from (word +:+ String a "") s'
  end.

Definition split (s : string) : list string := split_from "" s.

(** An [Argument] of the constructor: [name], [value], [types],
    [keywords]. *)
Record Argument := {
  arg_name : string;
  arg_value : val;
  arg_types : list pytype;
  arg_keywords : gset string
}.

(** [Argument.check_type] *)
Definition check_type (self : Argument) : outcome unit :=
  match arg_types self with
  | [] => Return ()
  | _ :: _ =>
      let nullable :=
        match arg_value self with VNone => true | _ => false end
        && bool_decide ("nonable" ∈ arg_keywords self) in
      if negb (nullable || isinstance (arg_value self) (arg_types self))
      then Raise (ArgumentTypeError "__init__" (arg_name self)
                    (AType <$> arg_types self) (type_of (arg_value self)))
      else Return ()
  end.

(** The loop of [Argument.__init__] over the annotation's elements: a type
    is appended to [types], a string replaces [keywords]. *)
Definition scan_annotations (l : list annot) : list pytype * gset string :=
  fold_left
    (λ '(types, keywords) annotation,
       match annotation with
       | AType t => (types ++ [t], keywords)%list
       | AStr s => (types, list_to_set (split s))
       | AOther => (types, keywords)
       end)
    l ([], ∅).

(** [Argument(name, value, annotations)] *)
Definition Argument_init (name : string) (value : val)
    (annotations : annotation) : outcome Argument :=
  let '(types, keywords) := scan_annotations (_to_tuple annotations) in
  let self := {| arg_name := name; arg_value := value;
                 arg_types := types; arg_keywords := keywords |} in
  match check_type self with
  | Return _ => Return self
  | Raise e => Raise e
  end.

(** The [Object] wrapping the instance to initialize: [obj], [type],
    [name], [keywords]. *)
Record Object := {
  obj : val;
  obj_type : pytype;
  obj_name : string;
  obj_keywords : gset string
}.

(** [Object(obj)] *)
Definition Object_init (o : val) : Object :=
  {| obj := o; obj_type := type_of o; obj_name := tname (type_of o);
     obj_keywords := ∅ |}.

Definition local_incompatible : list string :=
  ["private"; "boolean"; "number"; "string"; "container"; "compare"].

Definition uniques : list string :=
  ["boolean"; "number"; "container"; "compare"].

(** The methods of [Object] run on the [Object] itself and on the world. *)
Record composer := Composer { this : Object; globals : world }.

Definition set_keywords (k : gset string) (c : composer) : composer :=
  Composer {| obj := obj (this c); obj_type := obj_type (this c);
              obj_name := obj_name (this c); obj_keywords := k |}
           (globals c).

(** [Object.check_consistency] *)
Definition check_consistency (argument : Argument) : M composer unit := λ c,
  let incompatibles :=
    filter (λ k, k ∈ local_incompatible) (elements (arg_keywords argument)) in
  if bool_decide ("local" ∈ arg_keywords argument)
     && negb (bool_decide (length incompatibles = 0))
  then (Raise (AnnotationError (LocalIncompatible incompatibles)), c)
  else
    let uniques := arg_keywords argument ∩ list_to_set uniques in
    let error_keywords := uniques ∩ obj_keywords (this c) in
    if negb (bool_decide (error_keywords = ∅))
    then (Raise (AnnotationError (UsedOnce (elements error_keywords))), c)
    else (Return (),
          set_keywords (obj_keywords (this c) ∪ arg_keywords argument) c).

(** The attribute namespace of the class named [c]. *)
Definition namespace (w : world) (c : string) : gmap string cattr :=
  default ∅ (classes w !! c).

(** [hasattr(t, a)] for a class [t]: the class and its ancestors are
    searched. *)
Definition class_hasattr (w : world) (t : pytype) (a : string) : bool :=
  existsb (λ k, bool_decide (is_Some (namespace w k !! a)))
          (tname t :: tmro t).

(** [hasattr(self.type, a)] *)
Definition hasattr_type (a : string) (c : composer) : bool :=
  class_hasattr (globals c) (obj_type (this c)) a.

(** The classes once attribute [a] of the class named [k] holds [v]. *)
Definition update_class (w : world) (k a : string) (v : cattr)
    : gmap string (gmap string cattr) :=
  <[k := <[a := v]> (namespace w k)]> (classes w).

Definition set_classes (cs : gmap string (gmap string cattr)) (c : composer)
    : composer :=
  Composer (this c) (World (_enabled (globals c)) cs (instances (globals c))).

Definition set_instances (os : gmap nat (gmap string val)) (c : composer)
    : composer :=
  Composer (this c) (World (_enabled (globals c)) (classes (globals c)) os).

(** [self.type.a = v]: the attribute is written in the class's own
    namespace; a built-in type refuses it. *)
Definition setattr_type (a : string) (v : cattr) : M composer unit := λ c,
  match obj (this c) with
  | VInst cls _ =>
      (Return (), set_classes (update_class (globals c) (tname cls) a v) c)
  | _ => (Raise TypeError, c)
  end.

(** [setattr(self.obj, name, value)]; only instances of user-defined
    classes have an attribute dictionary. *)
Definition setattr_obj (name : string) (value : val) : M composer unit := λ c,
  match obj (this c) with
  | VInst _ ref =>
      (Return (),
       set_instances (<[ref := <[name := value]>
                                 (default ∅ (instances (globals c) !! ref))]>
                        (instances (globals c))) c)
  | _ => (Raise AttributeError, c)
  end.

(** [Object.set_private]: the argument is renamed. *)
Definition set_private (self : Object) (argument : Argument) : Argument :=
  {| arg_name := "_" +:+ obj_name self +:+ "__" +:+ arg_name argument;
     arg_value := arg_value argument;
     arg_types := arg_types argument;
     arg_keywords := arg_keywords argument |}.

(** [Object.add_tobool] *)
Definition add_tobool (argument : Argument) : M composer unit :=
  setattr_type "__bool__" (CMethod _bool) ;;;
  setattr_type "_varbool" (CName (arg_name argument)).

(** [Object.add_tonumber] *)
Definition add_tonumber (argument : Argument) : M composer unit :=
  setattr_type "__int__" (CMethod _int) ;;;
  setattr_type "__float__" (CMethod _float) ;;;
  setattr_type "_varnumber" (CName (arg_name argument)).

(** The class among [ks] that holds the list [_varstr], with the list. *)
Fixpoint find_varstr (w : world) (ks : list string) : option (string * cattr) :=
  match ks with
  | [] => None
  | k :: ks' =>
      match namespace w k !! "_varstr" with
      | Some v => Some (k, v)
      | None => find_varstr w ks'
      end
  end.

(** [Object.register_tostring]: a new list on the class, or an append to
    the list found on the class or one of its ancestors. *)
Definition register_tostring (argument : Argument) : M composer unit := λ c,
  if negb (hasattr_type "_varstr" c)
  then setattr_type "_varstr" (CNames [arg_name argument]) c
  else
    match find_varstr (globals c)
            (tname (obj_type (this c)) :: tmro (obj_type (this c))) with
    | Some (k, CNames l) =>
        (Return (),
         set_classes
           (update_class (globals c) k "_varstr"
              (CNames (l ++ [arg_name argument]))) c)
    | _ => (Raise AttributeError, c)
    end.

(** [Object.add_container_methods] *)
Definition add_container_methods (argument : Argument) : M composer unit :=
  setattr_type "__getitem__" (CMethod _getitem) ;;;
  setattr_type "__setitem__" (CMethod _setitem) ;;;
  setattr_type "__delitem__" (CMethod _delitem) ;;;
  setattr_type "__iter__" (CMethod _iter) ;;;
  setattr_type "__reversed__" (CMethod _reversed) ;;;
  setattr_type "__contains__" (CMethod _contains) ;;;
  setattr_type "_varitems" (CName (arg_name argument)).

(** [Object.add_comparison_methods] *)
Definition add_comparison_methods (argument : Argument) : M composer unit :=
  setattr_type "__eq__" (CMethod _eq) ;;;
  setattr_type "__ne__" (CMethod _ne) ;;;
  setattr_type "__lt__" (CMethod _lt) ;;;
  setattr_type "__le__" (CMethod _le) ;;;
  setattr_type "_varcmp" (CName (arg_name argument)).

(** [Object.add_tostring] *)
Definition add_tostring : M composer unit := λ c,
  if hasattr_type "_varstr" c
  then setattr_type "__str__" (CMethod _str) c
  else (Return (), c).

(** [if kw in argument.keywords: m] *)
Definition when_keyword (kw : string) (argument : Argument)
    (m : M composer unit) : M composer unit :=
  if bool_decide (kw ∈ arg_keywords argument) then m else ret ().

(** The block of [add_argument] under [if not hasattr(self.type,
    '_initialized')]; it returns the argument, renamed when private. *)
Definition install (argument : Argument) : M composer Argument := λ c,
  let argument :=
    if bool_decide ("private" ∈ arg_keywords argument)
    then set_private (this c) argument else argument in
  (when_keyword "boolean" argument (add_tobool argument) ;;;
   when_keyword "number" argument (add_tonumber argument) ;;;
   when_keyword "string" argument (register_tostring argument) ;;;
   when_keyword "container" argument (add_container_methods argument) ;;;
   when_keyword "compare" argument (add_comparison_methods argument) ;;;
   ret argument) c.

(** [Object.add_argument] *)
Definition add_argument (argument : Argument) : M composer unit :=
  check_consistency argument ;;;
  argument <- (λ c, if negb (hasattr_type "_initialized" c)
                    then install argument c
                    else (Return argument, c)) ;;
  setattr_obj (arg_name argument) (arg_value argument).

(** [Object.finalize] *)
Definition finalize : M composer unit :=
  add_tostring ;;;
  setattr_type "_initialized" CTrue.

(** The loop of [__init] over [zip(spec.args[1:], arguments[1:])]: each
    pair becomes an [Argument], built with the parameter's annotation or
    [None], and is added to the object. *)
Fixpoint add_arguments (spec : FullArgSpec) (pairs : list (string * val))
    : M composer unit :=
  match pairs with
  | [] => ret ()
  | (name, value) :: pairs' => λ c,
      match Argument_init name value
              (default (ASingle AOther) (annotations spec !! name)) with
      | Return argument =>
          (add_argument argument ;;; add_arguments spec pairs') c
      | Raise e => (Raise e, c)
      end
  end.

(** [list(args)], completed with [spec.defaults[len(arguments) -
    len(spec.args):]] when it is shorter than [spec.args]; the negative
    index selects the last defaults, all of them when there are too few,
    and [spec.defaults] is [None] for a constructor without defaults. *)
Definition complete_arguments (spec : FullArgSpec) (arguments : list val)
    : outcome (list val) :=
  if (length arguments <? length (args spec))%nat
  then match defaults spec with
       | Some d =>
           Return (arguments ++
                   drop (length d - (length (args spec) - length arguments)) d)%list
       | None => Raise TypeError
       end
  else Return arguments.

(** The block of [__init] under [if _enabled]. *)
Definition initialize (constructor : function) (arguments : list val)
    : M world unit := λ w,
  let spec := fn_spec constructor in
  match complete_arguments spec arguments with
  | Raise e => (Raise e, w)
  | Return [] => (Raise IndexError, w)
  | Return (receiver :: rest) =>
      let '(r, c) :=
        (add_arguments spec (zip (drop 1 (args spec)) rest) ;;; finalize)
          (Composer (Object_init receiver) w) in
      (r, globals c)
  end.

(** [init(constructor)] is the closure [__init]. *)
Definition init (constructor : function) : pyfun := λ arguments kwargs w,
  if _enabled w
  then match initialize constructor arguments w with
       | (Return _, w') => fn_body constructor arguments kwargs w'
       | (Raise e, w') => (Raise e, w')
       end
  else fn_body constructor arguments kwargs w.

(** ** Sample programs *)

(** The world of a freshly imported module. *)
Definition fresh : world := World true ∅ ∅.

Definition returns (v : val) : pyfun := λ _ _, ret v.

(** [def describe(n: int) -> str] *)
Definition describe_spec : FullArgSpec :=
  {| args := ["n"]; defaults := None;
     annotations := {[ "n" := ASingle (AType int_t);
                       "return" := ASingle (AType str_t) ]} |}.

Definition describe (body : pyfun) : function :=
  {| fn_name := "describe"; fn_spec := describe_spec; fn_body := body |}.

Definition Point : pytype := PyType "Point" ["object"].

(** [def __init__(self, x: (int, 'private boolean'), label: 'string' = 'p')]
    with a body that does nothing. *)
Definition Point_init : function :=
  {| fn_name := "__init__";
     fn_spec := {| args := ["self"; "x"; "label"];
                   defaults := Some [VStr "p"];
                   annotations :=
                     {[ "x" := ATuple [AType int_t; AStr "private boolean"];
                        "label" := ASingle (AStr "string") ]} |};
     fn_body := returns VNone |}.

(** [def maybe(n: (int, 'nonable')) -> str] *)
Definition maybe (body : pyfun) : function :=
  {| fn_name := "maybe";
     fn_spec := {| args := ["n"]; defaults := None;
                   annotations :=
                     {[ "n" := ATuple [AType int_t; AStr "nonable"];
                        "return" := ASingle (AType str_t) ]} |};
     fn_body := body |}.

(** [def rename(self: str, n: int) -> str] *)
Definition rename (body : pyfun) : function :=
  {| fn_name := "rename";
     fn_spec := {| args := ["self"; "n"]; defaults := None;
                   annotations :=
                     {[ "self" := ASingle (AType str_t);
                        "n" := ASingle (AType int_t);
                        "return" := ASingle (AType str_t) ]} |};
     fn_body := body |}.

(** ** Notions the properties are stated with *)

(** A pair of the loop of [checker] that fails [_type_ok] against its
    annotation. *)
Definition offending (spec : FullArgSpec) (p : string * val) : Prop :=
  ∃ a, annotations spec !! p.1 = Some a
       ∧ _type_ok p.2 (_to_tuple a) = false.

Definition scan_step (acc : list pytype * gset string) (annotation : annot)
    : list pytype * gset string :=
  match annotation with
  | AType t => (acc.1 ++ [t], acc.2)%list
  | AStr s => (acc.1, list_to_set (split s))
  | AOther => acc
  end.

(** The keywords an [AnnotationError] names. *)
Definition named (error : annotation_error) : list string :=
  match error with
  | LocalIncompatible incompatibles => incompatibles
  | UsedOnce error_keywords => error_keywords
  end.

Definition incompatibles_of (argument : Argument) : list string :=
  filter (λ k, k ∈ local_incompatible) (elements (arg_keywords argument)).

(** A field declared with the keywords of [keywords], holding [True]. *)
Definition field (name keywords : string) : Argument :=
  {| arg_name := name; arg_value := VBool true; arg_types := [];
     arg_keywords := list_to_set (split keywords) |}.

(** The [Object] of a first [Point], in a fresh world. *)
Definition first_point : composer :=
  Composer (Object_init (VInst Point 0)) fresh.

(** [m] never changes what [P] reads in the state, whether it returns or
    raises. *)
Definition preserves {A X} (P : composer → X) (m : M composer A) : Prop :=
  ∀ c r c', m c = (r, c') → P c' = P c.

(** The instance, its type and the name of the type. *)
Definition identity (c : composer) : val * pytype * string :=
  (obj (this c), obj_type (this c), obj_name (this c)).

(** The attribute dictionaries of all instances. *)
Definition insts (c : composer) : gmap nat (gmap string val) :=
  instances (globals c).

(** [hasattr(self.type, '_initialized')] *)
Definition initialized (c : composer) : bool := hasattr_type "_initialized" c.

(** The argument [install] hands back: renamed when private. *)
Definition installed (c : composer) (argument : Argument) : Argument :=
  if bool_decide ("private" ∈ arg_keywords argument)
  then set_private (this c) argument else argument.

(** The name under which [add_argument] attaches the value of an argument
    declared with [keywords]. *)
Definition attached_name (c : composer) (keywords : gset string)
    (name : string) : string :=
  if negb (initialized c) && bool_decide ("private" ∈ keywords)
  then "_" +:+ obj_name (this c) +:+ "__" +:+ name
  else name.

(** The keywords the parameter [name] is declared with. *)
Definition declared_keywords (spec : FullArgSpec) (name : string)
    : gset string :=
  (scan_annotations
     (_to_tuple (default (ASingle AOther) (annotations spec !! name)))).2.

(** The names and values the loop attaches for [pairs], from the state
    [c] on. *)
Definition attached (spec : FullArgSpec) (c : composer)
    (pairs : list (string * val)) : list (string * val) :=
  (λ p, (attached_name c (declared_keywords spec p.1) p.1, p.2)) <$> pairs.

(** The attribute dictionary [d] after the assignments [fields], in
    order. *)
Definition assign (d : gmap string val) (fields : list (string * val))
    : gmap string val :=
  foldl (λ d p, <[p.1 := p.2]> d) d fields.

(** [def __init__(self, x: int, y: int, z: 'string')], body doing
    nothing, for a class [Triple]. *)
Definition Triple : pytype := PyType "Triple" ["object"].

Definition Triple_init : function :=
  {| fn_name := "__init__";
     fn_spec := {| args := ["self"; "x"; "y"; "z"]; defaults := None;
                   annotations :=
                     {[ "x" := ASingle (AType int_t);
                        "y" := ASingle (AType int_t);
                        "z" := ASingle (AStr "string") ]} |};
     fn_body := returns VNone |}.

(** What [finalize] leaves on the class [cls]: the mark, and [__str__]
    when a list [_varstr] is in reach. *)
Definition finalized (w : world) (cls : pytype) : Prop :=
  namespace w (tname cls) !! "_initialized" = Some CTrue
  ∧ is_Some (classes w !! tname cls)
  ∧ (class_hasattr w cls "_varstr" = true →
     namespace w (tname cls) !! "__str__" = Some (CMethod _str)).

(** [m] raises nothing outside [E]. *)
Definition raises_only {A} (E : exn → Prop) (m : M composer A) : Prop :=
  ∀ c e c', m c = (Raise e, c') → E e.

(** A constructor whose declared fields have no conflict: no field
    declares [local] with a keyword incompatible with it, and no two
    fields declare the same keyword of [uniques]. *)
Definition correctly_declared (spec : FullArgSpec) : Prop :=
  (∀ name k, name ∈ drop 1 (args spec) →
             "local" ∈ declared_keywords spec name →
             k ∈ local_incompatible → k ∉ declared_keywords spec name)
  ∧ (∀ i j n m t, i ≠ j →
                  drop 1 (args spec) !! i = Some n →
                  drop 1 (args spec) !! j = Some m →
                  t ∈ uniques →
                  t ∈ declared_keywords spec n →
                  t ∉ declared_keywords spec m).

Definition no_annotation_error (e : exn) : Prop :=
  ∀ error, e ≠ AnnotationError error.

(** ** More sample programs and notions *)

(** The closure [checker] that [strict(func)] returns, as the function
    object a decorator above it receives: it is named [checker] and its
    signature is [( *args, **kwargs )], both annotated with a text. *)
Definition strict_function (func : function) : function :=
  {| fn_name := "checker";
     fn_spec := {| args := []; defaults := None;
                   annotations :=
                     {[ "args" := ASingle (AStr "arguments of the function");
                        "kwargs" := ASingle (AStr "dict of arguments") ]} |};
     fn_body := strict func |}.

(** The closure [__init] that [init(constructor)] returns, likewise. *)
Definition init_function (constructor : function) : function :=
  {| fn_name := "__init";
     fn_spec := {| args := []; defaults := None;
                   annotations :=
                     {[ "args" := ASingle (AStr "arguments to convert to fields");
                        "kwargs" := ASingle (AStr "dict of arguments") ]} |};
     fn_body := init constructor |}.

(** [def identity(x): return x] *)
Definition identity_function : function :=
  {| fn_name := "identity";
     fn_spec := {| args := ["x"]; defaults := None; annotations := ∅ |};
     fn_body := λ arguments _, ret (default VNone (arguments !! 0)) |}.

(** [def total( *values: int): return 3]: no positional parameter. *)
Definition total_function : function :=
  {| fn_name := "total";
     fn_spec := {| args := []; defaults := None;
                   annotations := {[ "values" := ASingle (AType int_t) ]} |};
     fn_body := returns (VInt 3) |}.

(** The last string among the elements of an annotation. *)
Definition last_string (l : list annot) : option string :=
  last (omap (λ a, match a with AStr s => Some s | _ => None end) l).

(** The class attributes [add_argument] can write. *)
Definition installed_attributes : list string :=
  ["__bool__"; "_varbool";
   "__int__"; "__float__"; "_varnumber";
   "_varstr";
   "__getitem__"; "__setitem__"; "__delitem__"; "__iter__"; "__reversed__";
   "__contains__"; "_varitems";
   "__eq__"; "__ne__"; "__lt__"; "__le__"; "_varcmp"].

(** The class attributes [finalize] can write. *)
Definition finalize_attributes : list string := ["__str__"; "_initialized"].

(** A class [Pixel] derived from [Point], with
    [def __init__(self, x: (int, 'private boolean'), shade: (int, 'number'))]
    and a body that does nothing. *)
Definition Pixel : pytype := PyType "Pixel" ["Point"; "object"].

Definition Pixel_init : function :=
  {| fn_name := "__init__";
     fn_spec := {| args := ["self"; "x"; "shade"]; defaults := None;
                   annotations :=
                     {[ "x" := ATuple [AType int_t; AStr "private boolean"];
                        "shade" := ATuple [AType int_t; AStr "number"] ]} |};
     fn_body := returns VNone |}.

(** The keywords that install methods reading one field, each with the
    class attribute that names the field. *)
Definition backing_fields : list (string * string) :=
  [("boolean", "_varbool"); ("number", "_varnumber");
   ("container", "_varitems"); ("compare", "_varcmp")].

(** The list [_varstr] the class [cls] itself holds, empty without one. *)
Definition varstr (w : world) (cls : pytype) : list string :=
  match namespace w (tname cls) !! "_varstr" with
  | Some (CNames l) => l
  | _ => []
  end.

(** No ancestor of [cls] holds a list [_varstr]. *)
Definition own_varstr (w : world) (cls : pytype) : Prop :=
  ∀ k, k ∈ tmro cls → k ≠ tname cls → namespace w k !! "_varstr" = None.

(** The pairs of the loop whose parameter is declared with [string]. *)
Definition string_fields (spec : FullArgSpec) (pairs : list (string * val))
    : list (string * val) :=
  filter (λ p, "string" ∈ declared_keywords spec p.1) pairs.

(** [def first_of(a, *rest: int)]: one declared positional parameter, the
    further values are collected by [*rest]. *)
Definition first_of (body : pyfun) : function :=
  {| fn_name := "first_of";
     fn_spec := {| args := ["a"]; defaults := None;
                   annotations := {[ "rest" := ASingle (AType int_t) ]} |};
     fn_body := body |}.

(** Every class attribute [_varstr] is a list of names, as
    [register_tostring] leaves it. *)
Definition varstr_lists (w : world) : Prop :=
  ∀ k v, namespace w k !! "_varstr" = Some v → ∃ l, v = CNames l.

(** The object wraps an instance of a user-defined class, and every
    [_varstr] is a list: the states in which the class and the instance
    can be written. *)
Definition writable (c : composer) : Prop :=
  (∃ cls ref, obj (this c) = VInst cls ref) ∧ varstr_lists (globals c).

(** From a writable state [m] returns, in a writable state with the same
    object. *)
Definition succeeds {A} (m : M composer A) : Prop :=
  ∀ c, writable c →
       ∃ a c', m c = (Return a, c') ∧ writable c' ∧ this c' = this c.

(** The [Object] of a first [Point] whose class was written with
    [_varstr = True]. *)
Definition marked_point : composer :=
  Composer (Object_init (VInst Point 0))
           (World true {[ "Point" := {[ "_varstr" := CTrue ]} ]} ∅).

(** The [Object] that wraps the integer [5]. *)
Definition wrapped_int : composer := Composer (Object_init (VInt 5)) fresh.

(** A class [Switch] with
    [def __init__(self, on: (bool, 'boolean'), armed: (bool, 'boolean'))]
    and a body that does nothing: two fields claim [boolean]. *)
Definition Switch : pytype := PyType "Switch" ["object"].

Definition Switch_init : function :=
  {| fn_name := "__init__";
     fn_spec := {| args := ["self"; "on"; "armed"]; defaults := None;
                   annotations :=
                     {[ "on" := ATuple [AType bool_t; AStr "boolean"];
                        "armed" := ATuple [AType bool_t; AStr "boolean"] ]} |};
     fn_body := returns VNone |}.

(** * Properties *)

(** ** The toggle *)

Lemma enabled_enable w : _enabled (enable w) = true.
Proof. reflexivity. Qed.

Lemma enabled_disable w : _enabled (disable w) = false.
Proof. reflexivity. Qed.

Lemma enable_disable w : enable (disable w) = enable w.
Proof. reflexivity. Qed.

(** ** Contract enforcement *)

Section Strict.
Variables (funcname : string) (spec : FullArgSpec).

Lemma check_positional_raises pairs p :
  p ∈ pairs → offending spec p →
  ∃ q a, q ∈ pairs ∧ annotations spec !! q.1 = Some a
         ∧ _type_ok q.2 (_to_tuple a) = false
         ∧ check_positional funcname spec pairs
           = Raise (ArgumentTypeError funcname q.1 (_to_tuple a)
                      (type_of q.2)).
Proof.
  induction pairs as [|[name value] pairs IH]; intros Hin Hoff.
  - by apply elem_of_nil in Hin.
  - simpl. destruct (annotations spec !! name) as [a|] eqn:Ha.
    + destruct (_type_ok value (_to_tuple a)) eqn:Hok; simpl.
      * apply elem_of_cons in Hin as [->|Hin].
        { destruct Hoff as (a' & Ha' & Hbad). simpl in *. congruence. }
        destruct (IH Hin Hoff) as (q & a' & Hq & ? & ? & ?).
        exists q, a'. split_and!; auto. by right.
      * exists (name, value), a. split_and!; auto. by left.
    + apply elem_of_cons in Hin as [->|Hin].
      { destruct Hoff as (a' & Ha' & _). simpl in *. congruence. }
      destruct (IH Hin Hoff) as (q & a' & Hq & ? & ? & ?).
      exists q, a'. split_and!; auto. by right.
Qed.

Lemma check_positional_only_argument_errors pairs e :
  check_positional funcname spec pairs = Raise e →
  ∃ name expected received,
    e = ArgumentTypeError funcname name expected received.
Proof.
  induction pairs as [|[name value] pairs IH]; simpl; [done|].
  destruct (annotations spec !! name) as [a|]; [|done].
  destruct (_type_ok value (_to_tuple a)); simpl; [done|].
  intros [= <-]. eauto.
Qed.

(** The positions the loop pairs: every position, the first one left out
    when the first parameter is [self]. *)
Lemma positional_pairs_lookup arguments k name value :
  args spec !! k = Some name → arguments !! k = Some value →
  ¬ (k = 0 ∧ name = "self") →
  ∃ pairs, positional_pairs spec arguments = Return pairs
           ∧ (name, value) ∈ pairs.
Proof.
  intros Hname Hvalue Hself. unfold positional_pairs.
  destruct (args spec) as [|a0 params] eqn:Hargs; [done|].
  eexists; split; [done|].
  case_bool_decide as Ha0.
  - destruct k as [|k]; [simpl in Hname; naive_solver|].
    destruct arguments as [|v0 arguments]; [done|].
    apply list_elem_of_lookup. exists k.
    apply lookup_zip_with_Some. exists name, value.
    by rewrite !lookup_drop.
  - apply list_elem_of_lookup. exists k.
    apply lookup_zip_with_Some. exists name, value.
    by rewrite !lookup_drop.
Qed.
End Strict.

(** C1, as stated, fails: with the toggle on, a positional argument whose
    concrete type is not among the annotated types is accepted when it is
    [None] under ['nonable'], when its type is a subclass of an annotated
    type ([bool] for [int]), when it is bound to a leading [self], and
    when it is past the declared positional parameters, collected by an
    annotated [*rest]; and a function that declares no positional
    parameter raises [IndexError] for it. *)
Lemma strict_accepts_type_outside_annotation :
  _enabled fresh = true
  ∧ ((type_of VNone ∉ [int_t])
     ∧ strict (maybe (returns (VStr "none"))) [VNone] [] fresh
       = (Return (VStr "none"), fresh))
  ∧ ((type_of (VBool true) ∉ [int_t])
     ∧ strict (describe (returns (VStr "one"))) [VBool true] [] fresh
       = (Return (VStr "one"), fresh))
  ∧ ((type_of (VInt 1) ∉ [str_t])
     ∧ strict (rename (returns (VStr "r"))) [VInt 1; VInt 2] [] fresh
       = (Return (VStr "r"), fresh))
  ∧ ((type_of (VStr "x") ∉ [int_t])
     ∧ strict (first_of (returns (VInt 1))) [VInt 1; VStr "x"] [] fresh
       = (Return (VInt 1), fresh))
  ∧ ((type_of (VStr "x") ∉ [int_t])
     ∧ strict total_function [VStr "x"] [] fresh = (Raise IndexError, fresh)).
Proof.
  split; [reflexivity|].
  split_and!; try (vm_compute; reflexivity);
    intros H; apply list_elem_of_singleton in H; discriminate H.
Qed.

(** C1 (amended): with the toggle on, (1) a value at the position of a
    declared positional parameter (an element of [spec.args]) that is
    annotated and is not a leading [self], when it is neither an instance
    of an annotated type nor [None] under ['nonable'], makes the call
    raise [ArgumentTypeError] for the function, with the world as it was
    before the call: the body has not run; (2) when the arguments check
    passes and the body returns a result that fails the return
    annotation, the call raises [ReturnTypeError] in the world the body
    left; (3) when both checks pass the result of the body is returned as
    it is. *)
Theorem strict_contract (func : function) (arguments : list val)
    (kwargs : list (string * val)) (w : world) :
  _enabled w = true →
  (∀ k name value a,
      args (fn_spec func) !! k = Some name → arguments !! k = Some value →
      ¬ (k = 0 ∧ name = "self") →
      annotations (fn_spec func) !! name = Some a →
      _type_ok value (_to_tuple a) = false →
      ∃ name' value' a',
        annotations (fn_spec func) !! name' = Some a'
        ∧ _type_ok value' (_to_tuple a') = false
        ∧ strict func arguments kwargs w
          = (Raise (ArgumentTypeError (fn_name func) name' (_to_tuple a')
                      (type_of value')), w))
  ∧ (∀ result w' a,
        arguments_check (fn_name func) (fn_spec func) arguments = Return () →
        fn_body func arguments kwargs w = (Return result, w') →
        annotations (fn_spec func) !! "return" = Some a →
        _type_ok result (_to_tuple a) = false →
        strict func arguments kwargs w
        = (Raise (ReturnTypeError (fn_name func) (_to_tuple a)
                    (type_of result)), w'))
  ∧ (∀ result w',
        arguments_check (fn_name func) (fn_spec func) arguments = Return () →
        fn_body func arguments kwargs w = (Return result, w') →
        (∀ a, annotations (fn_spec func) !! "return" = Some a →
              _type_ok result (_to_tuple a) = true) →
        strict func arguments kwargs w = (Return result, w')).
Proof.
  intros Hon. unfold strict. rewrite Hon. simpl. split_and!.
  - intros k name value a Hname Hvalue Hself Ha Hbad.
    destruct (positional_pairs_lookup (fn_spec func) arguments k name value)
      as (pairs & Hpairs & Hin); auto.
    destruct (check_positional_raises (fn_name func) (fn_spec func) pairs
                (name, value)) as ([name' value'] & a' & _ & Ha' & Hbad' & Hraise);
      [done | by exists a |].
    exists name', value', a'. split_and!; auto.
    unfold arguments_check. rewrite Hpairs, Hraise.
    assert (length arguments ≠ 0) by (destruct arguments; naive_solver).
    assert (args (fn_spec func) ≠ ["self"]).
    { intros Heq. rewrite Heq in Hname.
      destruct k as [|[|k]]; simpl in Hname; naive_solver. }
    by rewrite !bool_decide_eq_false_2.
  - intros result w' a -> -> Ha Hbad.
    unfold return_check. by rewrite Ha, Hbad.
  - intros result w' -> -> Hok. unfold return_check.
    destruct (annotations (fn_spec func) !! "return") as [a|]; [|done].
    by rewrite (Hok a).
Qed.

Lemma strict_contract_witness :
  (∃ name' value' a',
      annotations describe_spec !! name' = Some a'
      ∧ _type_ok value' (_to_tuple a') = false
      ∧ strict (describe (returns (VStr "five"))) [VStr "5"] [] fresh
        = (Raise (ArgumentTypeError "describe" name' (_to_tuple a')
                    (type_of value')), fresh))
  ∧ strict (describe (returns (VInt 5))) [VInt 5] [] fresh
    = (Raise (ReturnTypeError "describe" [AType str_t] int_t), fresh)
  ∧ strict (describe (returns (VStr "five"))) [VInt 5] [] fresh
    = (Return (VStr "five"), fresh).
Proof.
  split_and!.
  - apply (proj1 (strict_contract (describe (returns (VStr "five")))
                    [VStr "5"] [] fresh eq_refl)
             0 "n" (VStr "5") (ASingle (AType int_t)));
      [reflexivity | reflexivity | intros [_ H]; discriminate H
      | reflexivity | reflexivity].
  - apply (proj1 (proj2 (strict_contract (describe (returns (VInt 5)))
                           [VInt 5] [] fresh eq_refl))
             (VInt 5) fresh (ASingle (AType str_t))); reflexivity.
  - apply (proj2 (proj2 (strict_contract (describe (returns (VStr "five")))
                           [VInt 5] [] fresh eq_refl))
             (VStr "five") fresh); [reflexivity | reflexivity |].
    intros a Ha. vm_compute in Ha. injection Ha as <-. reflexivity.
Defined.

(** C10: only positional arguments are validated.  With the toggle on,
    whatever the keyword arguments are, and in particular when one of them
    fails the annotation of its parameter, a call whose positional
    arguments validate runs the body and only the return check follows;
    a call with no positional argument always is such a call. *)
Theorem keyword_arguments_not_validated (func : function)
    (arguments : list val) (kwargs : list (string * val))
    (name : string) (value : val) (a : annotation) (w : world) :
  _enabled w = true →
  (name, value) ∈ kwargs →
  annotations (fn_spec func) !! name = Some a →
  _type_ok value (_to_tuple a) = false →
  arguments_check (fn_name func) (fn_spec func) arguments = Return () →
  arguments_check (fn_name func) (fn_spec func) [] = Return ()
  ∧ strict func arguments kwargs w
    = match fn_body func arguments kwargs w with
      | (Return result, w') =>
          (return_check (fn_name func) (fn_spec func) result, w')
      | (Raise e, w') => (Raise e, w')
      end.
Proof.
  intros Hon _ _ _ Hargs. split; [reflexivity|].
  unfold strict. by rewrite Hon, Hargs.
Qed.

Lemma keyword_arguments_not_validated_witness :
  _type_ok (VStr "5") [AType int_t] = false
  ∧ strict (describe (returns (VStr "five"))) [] [("n", VStr "5")] fresh
    = (Return (VStr "five"), fresh).
Proof.
  split; [reflexivity|].
  apply (eq_trans
           (proj2 (keyword_arguments_not_validated
                     (describe (returns (VStr "five"))) [] [("n", VStr "5")]
                     "n" (VStr "5") (ASingle (AType int_t)) fresh
                     eq_refl (list_elem_of_here _ _) eq_refl eq_refl eq_refl))).
  reflexivity.
Defined.

(** ** The toggle, seen from the two decorators *)

(** A world whose toggle is off is a world left by [disable()]. *)
Lemma disabled_is_disable w : _enabled w = false → w = disable w.
Proof. destruct w as [[] ? ?]; [done|]. reflexivity. Qed.

(** C7 (amended): with the toggle off the decorated constructor checks
    nothing, installs nothing and assigns nothing: the call is the call of
    the original constructor, so the classes and the instances are left as
    the constructor body leaves them, and a body that touches neither
    leaves the instance without the declared fields. *)
Theorem init_disabled_assigns_nothing (constructor : function)
    (arguments : list val) (kwargs : list (string * val)) (w : world) :
  _enabled w = false →
  classes (init constructor arguments kwargs w).2
  = classes (fn_body constructor arguments kwargs w).2
  ∧ instances (init constructor arguments kwargs w).2
    = instances (fn_body constructor arguments kwargs w).2
  ∧ (∀ r, fn_body constructor arguments kwargs w = (r, w) →
          (init constructor arguments kwargs w).2 = w).
Proof.
  intros Hoff. unfold init. rewrite Hoff. split_and!; try done.
  by intros r ->.
Qed.

Lemma init_disabled_assigns_nothing_witness :
  instances (init Point_init [VInst Point 0; VInt 3] [] (disable fresh)).2
  = ∅.
Proof.
  apply (eq_trans
           (proj1 (proj2 (init_disabled_assigns_nothing Point_init
                            [VInst Point 0; VInt 3] [] (disable fresh)
                            eq_refl)))).
  reflexivity.
Defined.

(** C7, as stated, fails: with the toggle off the declared fields are not
    assigned on the instance, while they are with the toggle on. *)
Lemma init_disabled_leaves_fields_unset :
  _enabled (disable fresh) = false
  ∧ instances (init Point_init [VInst Point 0; VInt 3] [] (disable fresh)).2
      !! 0%nat = None
  ∧ instances (init Point_init [VInst Point 0; VInt 3] [] fresh).2 !! 0%nat
    = Some {[ "_Point__x" := VInt 3; "label" := VStr "p" ]}.
Proof. split_and!; vm_compute; reflexivity. Qed.

(** ** Descriptors *)

Lemma scan_annotations_fold l :
  scan_annotations l = fold_left scan_step l ([], ∅).
Proof.
  unfold scan_annotations. generalize (@nil pytype, (∅ : gset string)).
  induction l as [|a l IH]; intros [types keywords]; [done|].
  simpl. rewrite IH. by destruct a.
Qed.

(** The acceptable types are the elements of the annotation that are
    types, in their order. *)
Lemma scan_annotations_types l :
  (scan_annotations l).1
  = omap (λ a, match a with AType t => Some t | _ => None end) l.
Proof.
  rewrite scan_annotations_fold.
  enough (∀ acc, (fold_left scan_step l acc).1
                 = (acc.1 ++ omap (λ a, match a with
                                        | AType t => Some t
                                        | _ => None
                                        end) l)%list) as H by apply H.
  induction l as [|a l IH]; intros acc; simpl.
  - by rewrite app_nil_r.
  - rewrite IH. destruct a; simpl; [by rewrite <- app_assoc | done | done].
Qed.

Lemma check_type_raises_iff (self : Argument) :
  (∃ e, check_type self = Raise e)
  ↔ arg_types self ≠ []
    ∧ isinstance (arg_value self) (arg_types self) = false
    ∧ ¬ (arg_value self = VNone ∧ "nonable" ∈ arg_keywords self).
Proof.
  unfold check_type. destruct (arg_types self) as [|t types] eqn:Htypes.
  { split; [by intros [e He] | by intros [? _]]. }
  rewrite <- Htypes.
  destruct (isinstance (arg_value self) (arg_types self)) eqn:Hinst.
  { rewrite orb_true_r. simpl. split; [by intros [e He] | by intros (_ & ? & _)]. }
  rewrite orb_false_r.
  destruct (arg_value self) eqn:Hvalue; simpl;
    try (split; [intros _; split_and!; [by rewrite Htypes | done | by intros [? _]]
                | eauto]).
  case_bool_decide as Hnon; simpl.
  - split; [by intros [e He] | intros (_ & _ & H); by destruct H].
  - split; [intros _; split_and!; [by rewrite Htypes | done | by intros [_ ?]]
           | eauto].
Qed.

(** C3: constructing an [Argument] raises exactly when it has acceptable
    types, the value is an instance of none of them, and the value is not
    [None] under a declared ['nonable']; what is raised is the
    [ArgumentTypeError] of function ['__init__'] for the argument, and
    [None] under ['nonable'] is accepted whatever the types. *)
Theorem Argument_init_raises_iff (name : string) (value : val)
    (annotations : annotation) :
  let types := (scan_annotations (_to_tuple annotations)).1 in
  let keywords := (scan_annotations (_to_tuple annotations)).2 in
  ((∃ e, Argument_init name value annotations = Raise e)
   ↔ types ≠ [] ∧ isinstance value types = false
     ∧ ¬ (value = VNone ∧ "nonable" ∈ keywords))
  ∧ (∀ e, Argument_init name value annotations = Raise e →
          e = ArgumentTypeError "__init__" name (AType <$> types)
                (type_of value))
  ∧ (value = VNone → "nonable" ∈ keywords →
     Argument_init name value annotations
     = Return {| arg_name := name; arg_value := VNone;
                 arg_types := types; arg_keywords := keywords |}).
Proof.
  intros types keywords. unfold Argument_init.
  destruct (scan_annotations (_to_tuple annotations)) as [ts ks] eqn:Hscan.
  subst types keywords. simpl.
  set (self := {| arg_name := name; arg_value := value;
                  arg_types := ts; arg_keywords := ks |}).
  pose proof (check_type_raises_iff self) as Hiff. simpl in Hiff.
  split_and!.
  - rewrite <- Hiff. split; intros [e He].
    + destruct (check_type self) as [[]|e'] eqn:Hself; [done|]. eauto.
    + exists e. by rewrite He.
  - intros e. unfold check_type. simpl. destruct ts as [|t ts]; [done|].
    destruct (negb _); [|done]. by intros [= <-].
  - intros -> Hnon. unfold check_type. simpl. destruct ts as [|t ts]; [done|].
    by rewrite bool_decide_eq_true_2.
Qed.

Lemma Argument_init_raises_iff_witness :
  Argument_init "n" VNone (ATuple [AType int_t; AStr "private nonable"])
  = Return {| arg_name := "n"; arg_value := VNone; arg_types := [int_t];
              arg_keywords := {[ "private"; "nonable" ]} |}.
Proof.
  apply (eq_trans
           (proj2 (proj2 (Argument_init_raises_iff "n" VNone
                            (ATuple [AType int_t; AStr "private nonable"])))
              eq_refl ltac:(compute_done))).
  vm_compute; reflexivity.
Defined.

(** ** Consistency of the keywords *)

Lemma elem_of_incompatibles_of argument k :
  k ∈ incompatibles_of argument
  ↔ k ∈ arg_keywords argument ∧ k ∈ local_incompatible.
Proof.
  unfold incompatibles_of. rewrite list_elem_of_filter, elem_of_elements.
  tauto.
Qed.

Lemma uniques_local_incompatible t : t ∈ uniques → t ∈ local_incompatible.
Proof.
  unfold uniques, local_incompatible. rewrite !elem_of_cons, !elem_of_nil.
  tauto.
Qed.

Lemma check_consistency_local argument c k :
  "local" ∈ arg_keywords argument →
  k ∈ arg_keywords argument → k ∈ local_incompatible →
  check_consistency argument c
  = (Raise (AnnotationError (LocalIncompatible (incompatibles_of argument))), c).
Proof.
  intros Hlocal Hk Hinc. unfold check_consistency.
  fold (incompatibles_of argument).
  rewrite bool_decide_eq_true_2 by done.
  rewrite bool_decide_eq_false_2; [done|].
  assert (k ∈ incompatibles_of argument) as Hin
      by by apply elem_of_incompatibles_of.
  intros Hlen. apply nil_length_inv in Hlen. rewrite Hlen in Hin.
  by apply elem_of_nil in Hin.
Qed.

Lemma check_consistency_used argument c t :
  t ∈ uniques → t ∈ arg_keywords argument → t ∈ obj_keywords (this c) →
  ∃ error, check_consistency argument c = (Raise (AnnotationError error), c)
           ∧ t ∈ named error.
Proof.
  intros Hu Ht Hseen.
  destruct (decide ("local" ∈ arg_keywords argument)) as [Hlocal|Hlocal].
  { exists (LocalIncompatible (incompatibles_of argument)). split.
    - apply (check_consistency_local _ _ t); auto using uniques_local_incompatible.
    - apply elem_of_incompatibles_of; auto using uniques_local_incompatible. }
  unfold check_consistency.
  rewrite (bool_decide_eq_false_2 _ Hlocal), andb_false_l.
  set (error_keywords :=
         arg_keywords argument ∩ list_to_set uniques ∩ obj_keywords (this c)).
  assert (t ∈ error_keywords) as Hin.
  { unfold error_keywords. rewrite !elem_of_intersection, elem_of_list_to_set.
    done. }
  assert (error_keywords ≠ ∅) as Hne.
  { intros Heq. rewrite Heq in Hin. by apply not_elem_of_empty in Hin. }
  rewrite (bool_decide_eq_false_2 _ Hne). cbn [negb].
  exists (UsedOnce (elements error_keywords)). split; [done|].
  cbn [named]. by apply elem_of_elements.
Qed.

Lemma check_consistency_ok argument c :
  "local" ∉ arg_keywords argument →
  arg_keywords argument ∩ list_to_set uniques ∩ obj_keywords (this c) = ∅ →
  check_consistency argument c
  = (Return (),
     set_keywords (obj_keywords (this c) ∪ arg_keywords argument) c).
Proof.
  intros Hlocal Hfree. unfold check_consistency.
  rewrite (bool_decide_eq_false_2 _ Hlocal), andb_false_l.
  by rewrite (bool_decide_eq_true_2 _ Hfree).
Qed.

(** A failed check leaves the object as it was; a passed one adds the
    keywords of the argument and nothing else. *)
Lemma check_consistency_state argument c r c' :
  check_consistency argument c = (r, c') →
  match r with
  | Raise _ => c' = c
  | Return _ =>
      c' = set_keywords (obj_keywords (this c) ∪ arg_keywords argument) c
  end.
Proof.
  unfold check_consistency.
  destruct (_ && _); [by intros [= <- <-]|].
  destruct (negb _); by intros [= <- <-].
Qed.

Lemma add_argument_raises argument c e :
  check_consistency argument c = (Raise e, c) →
  add_argument argument c = (Raise e, c).
Proof. intros H. unfold add_argument, bind. by rewrite H. Qed.

(** C4, as stated, fails: the first field that carries [boolean] is
    rejected when it also carries [local], and when another unique keyword
    of it is already claimed; adding it also fails when the class holds a
    [_varstr] that is no list and the field carries [string], and when
    the object is no instance of a user-defined class. *)
Lemma first_unique_field_rejected :
  ("boolean" ∈ arg_keywords (field "a" "local boolean")
   ∧ "boolean" ∈ arg_keywords (field "b" "boolean")
   ∧ add_argument (field "a" "local boolean") first_point
     = (Raise (AnnotationError (LocalIncompatible ["boolean"])), first_point))
  ∧ (("boolean" ∉ arg_keywords (field "x" "number"))
     ∧ "boolean" ∈ arg_keywords (field "y" "number boolean")
     ∧ "boolean" ∈ arg_keywords (field "z" "boolean")
     ∧ (add_argument (field "x" "number") first_point).1 = Return ()
     ∧ add_argument (field "y" "number boolean")
         (add_argument (field "x" "number") first_point).2
       = (Raise (AnnotationError (UsedOnce ["number"])),
          (add_argument (field "x" "number") first_point).2))
  ∧ ("boolean" ∈ arg_keywords (field "a" "boolean string")
     ∧ "boolean" ∈ arg_keywords (field "b" "boolean")
     ∧ (add_argument (field "a" "boolean string") marked_point).1
       = Raise AttributeError)
  ∧ ("boolean" ∈ arg_keywords (field "a" "boolean")
     ∧ "boolean" ∈ arg_keywords (field "b" "boolean")
     ∧ (add_argument (field "a" "boolean") wrapped_int).1 = Raise TypeError).
Proof.
  split_and!; first [by vm_compute; reflexivity | compute_done].
Qed.

(** C5: adding an argument whose keywords contain [local] and at least one
    keyword of [local_incompatible] raises [AnnotationError]; the error
    names exactly the keywords of the argument that are incompatible with
    [local], and the object and the world are left as they were. *)
Theorem local_incompatible_raises (argument : Argument) (k : string)
    (c : composer) :
  "local" ∈ arg_keywords argument →
  k ∈ arg_keywords argument → k ∈ local_incompatible →
  ∃ incompatibles,
    add_argument argument c
    = (Raise (AnnotationError (LocalIncompatible incompatibles)), c)
    ∧ k ∈ incompatibles
    ∧ ∀ k', k' ∈ incompatibles
            ↔ k' ∈ arg_keywords argument ∧ k' ∈ local_incompatible.
Proof.
  intros Hlocal Hk Hinc. exists (incompatibles_of argument). split_and!.
  - apply add_argument_raises. by apply (check_consistency_local _ _ k).
  - by apply elem_of_incompatibles_of.
  - apply elem_of_incompatibles_of.
Qed.

Lemma local_incompatible_raises_witness :
  ∃ incompatibles,
    add_argument (field "cache" "local private string") first_point
    = (Raise (AnnotationError (LocalIncompatible incompatibles)), first_point)
    ∧ "string" ∈ incompatibles.
Proof.
  destruct (local_incompatible_raises (field "cache" "local private string")
              "string" first_point
              ltac:(compute_done) ltac:(compute_done) ltac:(compute_done))
    as (incompatibles & Hraise & Hin & _).
  exists incompatibles. by split.
Defined.

(** ** Private fields *)

(** C8 does not hold of the code: [set_private] is called under [if not
    hasattr(self.type, '_initialized')], so only the first construction of
    a type attaches a private field under its mangled name.  The second
    [Point] gets the value under the plain name [x], while the class still
    names [_Point__x] as the field behind [bool()]. *)
Theorem private_name_mangled_on_first_construction_only :
  let w1 := (init Point_init [VInst Point 0; VInt 3] [] fresh).2 in
  let w2 := (init Point_init [VInst Point 1; VInt 4] [] w1).2 in
  "private" ∈ (scan_annotations
                 [AType int_t; AStr "private boolean"]).2
  ∧ _enabled w1 = true
  ∧ instances w1 !! 0%nat
    = Some {[ "_Point__x" := VInt 3; "label" := VStr "p" ]}
  ∧ (init Point_init [VInst Point 1; VInt 4] [] w1).1 = Return VNone
  ∧ instances w2 !! 1%nat = Some {[ "x" := VInt 4; "label" := VStr "p" ]}
  ∧ namespace w2 "Point" !! "_varbool" = Some (CName "_Point__x").
Proof. split_and!; first [by vm_compute; reflexivity | compute_done]. Qed.

(** ** What the methods of [Object] leave as it was *)

Lemma bind_Return {S A B} (m : M S A) (k : A → M S B) s b s' :
  bind m k s = (Return b, s') →
  ∃ a s1, m s = (Return a, s1) ∧ k a s1 = (Return b, s').
Proof.
  unfold bind. destruct (m s) as [[a|e] s1]; [eauto | discriminate].
Qed.

Lemma bind_Raise {S A B} (m : M S A) (k : A → M S B) s e s' :
  bind m k s = (Raise e, s') →
  m s = (Raise e, s')
  ∨ ∃ a s1, m s = (Return a, s1) ∧ k a s1 = (Raise e, s').
Proof.
  unfold bind. destruct (m s) as [[a|e1] s1]; [eauto | intros [= <- <-]; eauto].
Qed.

Lemma preserves_ret {A X} (P : composer → X) (a : A) : preserves P (ret a).
Proof. by intros c r c' [= <- <-]. Qed.

Lemma preserves_bind {A B X} (P : composer → X) (m : M composer A)
    (k : A → M composer B) :
  preserves P m → (∀ a, preserves P (k a)) → preserves P (bind m k).
Proof.
  intros Hm Hk c r c'. unfold bind.
  destruct (m c) as [[a|e] c1] eqn:Hmc.
  - intros Hkc. rewrite (Hk a _ _ _ Hkc). eauto.
  - intros [= <- <-]. eauto.
Qed.

Lemma preserves_when_keyword {X} (P : composer → X) kw argument m :
  preserves P m → preserves P (when_keyword kw argument m).
Proof.
  intros Hm. unfold when_keyword. case_bool_decide; [done|].
  apply preserves_ret.
Qed.

Lemma namespace_update w e i k a v k' :
  namespace (World e (update_class w k a v) i) k'
  = if decide (k = k') then <[a := v]> (namespace w k) else namespace w k'.
Proof.
  unfold namespace at 1, update_class. simpl.
  rewrite lookup_insert. by destruct (decide (k = k')).
Qed.

(** Writing the attribute [a] of a class changes no [hasattr] for another
    attribute. *)
Lemma class_hasattr_update w e i k a v t b :
  a ≠ b →
  class_hasattr (World e (update_class w k a v) i) t b = class_hasattr w t b.
Proof.
  intros Hab. unfold class_hasattr.
  induction (tname t :: tmro t) as [|k' ks IH]; [done|].
  simpl. rewrite IH. f_equal. rewrite namespace_update.
  destruct (decide (k = k')) as [->|]; [|done].
  by rewrite lookup_insert_ne.
Qed.

Section SetattrType.
Variables (a : string) (v : cattr).

Lemma setattr_type_identity : preserves identity (setattr_type a v).
Proof.
  intros c r c'. unfold setattr_type.
  destruct (obj (this c)); by intros [= <- <-].
Qed.

Lemma setattr_type_insts : preserves insts (setattr_type a v).
Proof.
  intros c r c'. unfold setattr_type.
  destruct (obj (this c)); by intros [= <- <-].
Qed.

Lemma setattr_type_hasattr b :
  a ≠ b → preserves (hasattr_type b) (setattr_type a v).
Proof.
  intros Hab c r c'. unfold setattr_type.
  destruct (obj (this c)); intros [= <- <-]; try done.
  unfold hasattr_type, set_classes. simpl.
  by apply class_hasattr_update.
Qed.
End SetattrType.

Lemma register_tostring_identity argument :
  preserves identity (register_tostring argument).
Proof.
  intros c r c'. unfold register_tostring.
  destruct (negb _); [apply setattr_type_identity|].
  destruct (find_varstr _ _) as [[k []]|]; by intros [= <- <-].
Qed.

Lemma register_tostring_insts argument :
  preserves insts (register_tostring argument).
Proof.
  intros c r c'. unfold register_tostring.
  destruct (negb _); [apply setattr_type_insts|].
  destruct (find_varstr _ _) as [[k []]|]; by intros [= <- <-].
Qed.

Lemma register_tostring_initialized argument :
  preserves initialized (register_tostring argument).
Proof.
  intros c r c'. unfold register_tostring.
  destruct (negb _); [by apply setattr_type_hasattr|].
  destruct (find_varstr _ _) as [[k []]|]; intros [= <- <-]; try done.
  unfold initialized, hasattr_type, set_classes. simpl.
  by apply class_hasattr_update.
Qed.

(** Whatever every write of a class attribute other than [_initialized]
    and every registration for [str()] leave unchanged, the installation
    of the capabilities leaves unchanged. *)
Section Install.
Context {X : Type} (P : composer → X).
Hypothesis setattr_type_P :
  ∀ a v, a ≠ "_initialized" → preserves P (setattr_type a v).
Hypothesis register_tostring_P :
  ∀ argument, preserves P (register_tostring argument).

Ltac sequence :=
  repeat first
    [ apply preserves_ret
    | apply preserves_when_keyword
    | apply register_tostring_P
    | apply setattr_type_P; discriminate
    | apply preserves_bind; [|intros ?] ].

Lemma add_tobool_P argument : preserves P (add_tobool argument).
Proof. unfold add_tobool. sequence. Qed.

Lemma add_tonumber_P argument : preserves P (add_tonumber argument).
Proof. unfold add_tonumber. sequence. Qed.

Lemma add_container_methods_P argument :
  preserves P (add_container_methods argument).
Proof. unfold add_container_methods. sequence. Qed.

Lemma add_comparison_methods_P argument :
  preserves P (add_comparison_methods argument).
Proof. unfold add_comparison_methods. sequence. Qed.

Lemma install_P argument : preserves P (install argument).
Proof.
  intros c r c'. unfold install.
  set (renamed := if bool_decide _ then _ else _). clearbody renamed.
  revert c r c'.
  change (preserves P
            (when_keyword "boolean" renamed (add_tobool renamed) ;;;
             when_keyword "number" renamed (add_tonumber renamed) ;;;
             when_keyword "string" renamed (register_tostring renamed) ;;;
             when_keyword "container" renamed
               (add_container_methods renamed) ;;;
             when_keyword "compare" renamed
               (add_comparison_methods renamed) ;;;
             ret renamed)).
  apply preserves_bind; [apply preserves_when_keyword, add_tobool_P|intros _].
  apply preserves_bind; [apply preserves_when_keyword, add_tonumber_P|intros _].
  apply preserves_bind; [apply preserves_when_keyword, register_tostring_P|intros _].
  apply preserves_bind;
    [apply preserves_when_keyword, add_container_methods_P|intros _].
  apply preserves_bind;
    [apply preserves_when_keyword, add_comparison_methods_P|intros _].
  apply preserves_ret.
Qed.
End Install.

Lemma install_returns argument c a c' :
  install argument c = (Return a, c') → a = installed c argument.
Proof.
  unfold install. fold (installed c argument). intros H.
  repeat (apply bind_Return in H as (? & ? & _ & H)).
  by injection H as <- _.
Qed.

Lemma check_consistency_unchanged argument c r c' :
  check_consistency argument c = (r, c') →
  identity c' = identity c ∧ globals c' = globals c.
Proof.
  intros H. apply check_consistency_state in H. destruct r; by subst.
Qed.

Lemma check_consistency_inv argument c r c' :
  check_consistency argument c = (r, c') →
  identity c' = identity c ∧ initialized c' = initialized c
  ∧ insts c' = insts c.
Proof.
  intros H. apply check_consistency_unchanged in H as [Hid Hglobals].
  split_and!; [done | | by unfold insts; rewrite Hglobals].
  unfold initialized, hasattr_type. injection Hid as _ -> _.
  by rewrite Hglobals.
Qed.

Lemma install_inv argument c r c' :
  install argument c = (r, c') →
  identity c' = identity c ∧ initialized c' = initialized c
  ∧ insts c' = insts c.
Proof.
  intros H. split_and!.
  - by apply (install_P identity (λ a v _, setattr_type_identity a v)
                register_tostring_identity _ _ _ _ H).
  - by apply (install_P initialized
                (λ a v, setattr_type_hasattr a v "_initialized")
                register_tostring_initialized _ _ _ _ H).
  - by apply (install_P insts (λ a v _, setattr_type_insts a v)
                register_tostring_insts _ _ _ _ H).
Qed.

Lemma setattr_obj_inv name value c r c' :
  setattr_obj name value c = (r, c') →
  identity c' = identity c ∧ initialized c' = initialized c
  ∧ match r with
    | Raise _ => insts c' = insts c
    | Return _ =>
        ∃ cls ref,
          obj (this c) = VInst cls ref
          ∧ insts c'
            = <[ref := <[name := value]> (default ∅ (insts c !! ref))]>
                (insts c)
    end.
Proof.
  unfold setattr_obj.
  destruct (obj (this c)) eqn:Hobj; intros [= <- <-]; try done.
  split_and!; [done | done |]. eauto.
Qed.

Lemma add_argument_inv argument c r c' :
  add_argument argument c = (r, c') →
  identity c' = identity c ∧ initialized c' = initialized c
  ∧ match r with
    | Raise _ => insts c' = insts c
    | Return _ =>
        ∃ cls ref,
          obj (this c) = VInst cls ref
          ∧ insts c'
            = <[ref := <[attached_name c (arg_keywords argument)
                           (arg_name argument) := arg_value argument]>
                         (default ∅ (insts c !! ref))]> (insts c)
    end.
Proof.
  unfold add_argument, bind.
  destruct (check_consistency argument c) as [[[]|e] c1] eqn:Hcheck;
    apply check_consistency_inv in Hcheck as (Hid1 & Hinit1 & Hinsts1);
    [|by intros [= <- <-]].
  fold (initialized c1).
  destruct (initialized c1) eqn:Hinit; simpl.
  - intros H. apply setattr_obj_inv in H as (Hid & Hinit' & H).
    rewrite Hid, Hinit', Hid1, Hinit. split_and!; [done | congruence |].
    destruct r; [|congruence].
    destruct H as (cls & ref & Hobj & H). exists cls, ref.
    injection Hid1 as Hobj1 _ _. rewrite <- Hobj1, <- Hinsts1.
    split; [done|]. unfold attached_name. by rewrite <- Hinit1.
  - destruct (install argument c1) as [[a|e] c2] eqn:Hinstall;
      pose proof (install_inv _ _ _ _ Hinstall) as (Hid2 & Hinit2 & Hinsts2);
      [|intros [= <- <-]; split_and!; congruence].
    apply install_returns in Hinstall. subst a.
    intros H. apply setattr_obj_inv in H as (Hid & Hinit' & H).
    split_and!; [congruence | congruence |].
    destruct r; [|congruence].
    destruct H as (cls & ref & Hobj & H). exists cls, ref.
    rewrite Hid1 in Hid2. injection Hid2 as Hobj2 _ _.
    injection Hid1 as _ _ Hname1.
    rewrite <- Hobj2. split; [done|].
    rewrite H, Hinsts2, Hinsts1. unfold attached_name, installed.
    rewrite <- Hinit1. simpl.
    destruct (bool_decide ("private" ∈ arg_keywords argument)); simpl;
      by rewrite ?Hname1.
Qed.

Lemma Argument_init_Return name value a self :
  Argument_init name value a = Return self →
  arg_name self = name ∧ arg_value self = value
  ∧ arg_keywords self = (scan_annotations (_to_tuple a)).2.
Proof.
  unfold Argument_init.
  destruct (scan_annotations (_to_tuple a)) as [types keywords].
  destruct (check_type _); [|done]. by intros [= <-].
Qed.

Lemma add_arguments_cons spec name value pairs c :
  add_arguments spec ((name, value) :: pairs) c
  = match add_arguments spec [(name, value)] c with
    | (Return _, c1) => add_arguments spec pairs c1
    | (Raise e, c1) => (Raise e, c1)
    end.
Proof.
  simpl. destruct (Argument_init _ _ _) as [argument|e]; [|done].
  unfold bind. by destruct (add_argument argument c) as [[[]|e] c1].
Qed.

Lemma add_arguments_app spec pre post c :
  add_arguments spec (pre ++ post) c
  = match add_arguments spec pre c with
    | (Return _, c1) => add_arguments spec post c1
    | (Raise e, c1) => (Raise e, c1)
    end.
Proof.
  revert c. induction pre as [|[name value] pre IH]; intros c; [done|].
  rewrite <- app_comm_cons.
  rewrite (add_arguments_cons _ _ _ (pre ++ post)), (add_arguments_cons _ _ _ pre).
  destruct (add_arguments spec [(name, value)] c) as [[[]|e] c1]; [|done].
  apply IH.
Qed.

Lemma add_arguments_step spec name value c r c' :
  add_arguments spec [(name, value)] c = (r, c') →
  identity c' = identity c ∧ initialized c' = initialized c
  ∧ match r with
    | Raise _ => insts c' = insts c
    | Return _ =>
        ∃ cls ref,
          obj (this c) = VInst cls ref
          ∧ insts c'
            = <[ref := <[attached_name c (declared_keywords spec name) name
                         := value]> (default ∅ (insts c !! ref))]> (insts c)
    end.
Proof.
  simpl. destruct (Argument_init _ _ _) as [argument|e] eqn:Hinit;
    [|by intros [= <- <-]].
  apply Argument_init_Return in Hinit as (Hname & Hvalue & Hkeywords).
  unfold bind.
  destruct (add_argument argument c) as [[[]|e] c1] eqn:Hadd;
    apply add_argument_inv in Hadd as (Hid & Hinitd & H);
    intros [= <- <-]; split_and!; try done.
  destruct H as (cls & ref & Hobj & H). exists cls, ref. split; [done|].
  by rewrite H, Hname, Hvalue, Hkeywords.
Qed.

Lemma attached_name_state c c' keywords name :
  identity c' = identity c → initialized c' = initialized c →
  attached_name c' keywords name = attached_name c keywords name.
Proof.
  intros [= _ _ Hname] Hinit. unfold attached_name. by rewrite Hname, Hinit.
Qed.

(** A loop that returns has attached its fields, in order, on the instance
    and has touched no other instance. *)
Lemma add_arguments_attached spec pairs c c1 cls ref :
  obj (this c) = VInst cls ref →
  add_arguments spec pairs c = (Return (), c1) →
  identity c1 = identity c ∧ initialized c1 = initialized c
  ∧ (∀ ref', ref' ≠ ref → insts c1 !! ref' = insts c !! ref')
  ∧ default ∅ (insts c1 !! ref)
    = assign (default ∅ (insts c !! ref)) (attached spec c pairs).
Proof.
  revert c. induction pairs as [|[name value] pairs IH]; intros c Hobj.
  - by intros [= <-].
  - rewrite add_arguments_cons.
    destruct (add_arguments spec [(name, value)] c) as [[[]|e] c0] eqn:Hstep;
      [|done].
    apply add_arguments_step in Hstep as (Hid & Hinit & cls' & ref' & Hobj' & H).
    rewrite Hobj in Hobj'. injection Hobj' as <- <-.
    intros Hrest. apply IH in Hrest as (Hid1 & Hinit1 & Hother & Hthis).
    2: { injection Hid as -> _ _. done. }
    split_and!; [congruence | congruence | |].
    + intros ref' Hne. rewrite Hother, H by done. by rewrite lookup_insert_ne.
    + rewrite Hthis, H, lookup_insert_eq. simpl. unfold attached.
      f_equal. apply list_fmap_ext. intros i [n v] _. simpl.
      by rewrite (attached_name_state c c0).
Qed.

Lemma assign_lookup d fields n v :
  NoDup fields.*1 → (n, v) ∈ fields → assign d fields !! n = Some v.
Proof.
  unfold assign. revert d.
  induction fields as [|[n' v'] fields IH]; intros d Hdup Hin.
  - by apply elem_of_nil in Hin.
  - simpl in *. apply NoDup_cons in Hdup as [Hfresh Hdup].
    apply elem_of_cons in Hin as [[= -> ->]|Hin]; [|by apply IH].
    clear IH Hdup. revert d.
    induction fields as [|[n v] fields IH]; intros d; simpl.
    + apply lookup_insert_eq.
    + simpl in Hfresh. apply not_elem_of_cons in Hfresh as [Hne Hfresh].
      rewrite insert_insert_ne by done. by apply IH.
Qed.

(** C9: when the construction fails at a descriptor, after the descriptors
    before it were added, the decorated constructor raises that error to
    its caller without running the constructor body, and the instances are
    as the successful descriptors left them: the receiver holds their
    assignments, in order, and nothing is rolled back. *)
Theorem failed_construction_keeps_fields (constructor : function)
    (arguments : list val) (kwargs : list (string * val)) (w : world)
    (receiver : val) (rest : list val) (pre post : list (string * val))
    (name : string) (value : val) (c1 c2 : composer) (e : exn) :
  let spec := fn_spec constructor in
  let c0 := Composer (Object_init receiver) w in
  _enabled w = true →
  complete_arguments spec arguments = Return (receiver :: rest) →
  zip (drop 1 (args spec)) rest = (pre ++ (name, value) :: post)%list →
  add_arguments spec pre c0 = (Return (), c1) →
  add_arguments spec [(name, value)] c1 = (Raise e, c2) →
  init constructor arguments kwargs w = (Raise e, globals c2)
  ∧ instances (globals c2) = instances (globals c1)
  ∧ ∀ cls ref, receiver = VInst cls ref →
      default ∅ (instances (globals c2) !! ref)
      = assign (default ∅ (instances w !! ref)) (attached spec c0 pre)
      ∧ (∀ ref', ref' ≠ ref →
                 instances (globals c2) !! ref' = instances w !! ref')
      ∧ (∀ n v, NoDup (attached spec c0 pre).*1 →
                (n, v) ∈ attached spec c0 pre →
                default ∅ (instances (globals c2) !! ref) !! n = Some v).
Proof.
  intros spec c0 Hon Hcomplete Hzip Hpre Hfail.
  pose proof (add_arguments_step _ _ _ _ _ _ Hfail) as (_ & _ & Hinsts).
  fold (insts c2) (insts c1) in Hinsts |- *. split_and!.
  - unfold init, initialize. fold spec. rewrite Hon, Hcomplete, Hzip.
    fold c0. unfold bind at 1.
    by rewrite add_arguments_app, Hpre, add_arguments_cons, Hfail.
  - done.
  - intros cls ref ->.
    destruct (add_arguments_attached spec pre c0 c1 cls ref eq_refl Hpre)
      as (_ & _ & Hother & Hthis).
    rewrite Hinsts. split_and!; [done | done |].
    intros n v Hdup Hin. rewrite Hthis. by apply assign_lookup.
Qed.

Lemma failed_construction_keeps_fields_witness :
  init Triple_init [VInst Triple 0; VInt 1; VStr "two"; VInt 3] [] fresh
  = (Raise (ArgumentTypeError "__init__" "y" [AType int_t] str_t),
     World true ∅ {[ 0%nat := {[ "x" := VInt 1 ]} ]}).
Proof.
  set (c0 := Composer (Object_init (VInst Triple 0)) fresh).
  set (c1 := (add_arguments (fn_spec Triple_init) [("x", VInt 1)] c0).2).
  apply (eq_trans
           (proj1 (failed_construction_keeps_fields Triple_init
                     [VInst Triple 0; VInt 1; VStr "two"; VInt 3] [] fresh
                     (VInst Triple 0) [VInt 1; VStr "two"; VInt 3]
                     [("x", VInt 1)] [("z", VInt 3)] "y" (VStr "two") c1 c1
                     (ArgumentTypeError "__init__" "y" [AType int_t] str_t)
                     eq_refl eq_refl eq_refl
                     ltac:(vm_compute; reflexivity)
                     ltac:(vm_compute; reflexivity)))).
  vm_compute; reflexivity.
Defined.

(** ** A type that has been through [finalize] *)

Lemma finalized_classes w w' cls :
  classes w = classes w' → finalized w cls → finalized w' cls.
Proof.
  unfold finalized, class_hasattr, namespace. by intros ->.
Qed.

Lemma finalized_initialized w cls :
  finalized w cls → class_hasattr w cls "_initialized" = true.
Proof.
  intros (Hmark & _ & _). unfold class_hasattr. simpl.
  rewrite Hmark. by rewrite bool_decide_eq_true_2.
Qed.

Lemma update_class_id w k a v :
  namespace w k !! a = Some v → is_Some (classes w !! k) →
  update_class w k a v = classes w.
Proof.
  intros Ha [ns Hns]. unfold update_class, namespace in *.
  rewrite Hns in *. simpl in *. rewrite (insert_id ns) by done.
  by apply insert_id.
Qed.

Lemma finalize_finalizes c c' cls ref :
  obj (this c) = VInst cls ref → obj_type (this c) = cls →
  finalize c = (Return (), c') → finalized (globals c') cls.
Proof.
  intros Hobj Htype. unfold finalize, bind, add_tostring, setattr_type.
  assert (∀ c1, obj (this c1) = VInst cls ref →
                (class_hasattr (globals c1) cls "_varstr" = true →
                 namespace (globals c1) (tname cls) !! "__str__"
                 = Some (CMethod _str)) →
                finalized
                  (globals (set_classes
                              (update_class (globals c1) (tname cls)
                                 "_initialized" CTrue) c1)) cls) as Hlast.
  { intros c1 Hobj1 Hstr. unfold finalized, set_classes. simpl. split_and!.
    - rewrite namespace_update, decide_True by done. apply lookup_insert_eq.
    - unfold update_class. rewrite lookup_insert_eq. eauto.
    - rewrite class_hasattr_update by done. intros Hvar.
      rewrite namespace_update, decide_True by done.
      rewrite lookup_insert_ne by done. auto. }
  unfold hasattr_type. rewrite Htype, Hobj.
  destruct (class_hasattr (globals c) cls "_varstr") eqn:Hvar.
  - simpl. rewrite Hobj. intros [= <-]. apply Hlast; [done|].
    intros _. simpl. rewrite namespace_update, decide_True by done.
    apply lookup_insert_eq.
  - rewrite Hobj. intros [= <-]. apply Hlast; [done|]. congruence.
Qed.

(** On a finalized class [finalize] changes no class. *)
Lemma finalize_again c cls ref :
  obj (this c) = VInst cls ref → obj_type (this c) = cls →
  finalized (globals c) cls →
  ∃ c', finalize c = (Return (), c')
        ∧ classes (globals c') = classes (globals c).
Proof.
  intros Hobj Htype (Hmark & Hsome & Hstr).
  unfold finalize, bind, add_tostring, setattr_type, hasattr_type.
  rewrite Htype, Hobj.
  destruct (class_hasattr (globals c) cls "_varstr") eqn:Hvar.
  - rewrite (update_class_id _ _ _ _ (Hstr eq_refl) Hsome). simpl.
    rewrite Hobj. eexists. split; [done|]. simpl.
    apply (update_class_id (World _ (classes (globals c)) _));
      [exact Hmark | exact Hsome].
  - rewrite Hobj. eexists. split; [done|]. simpl. by apply update_class_id.
Qed.

(** ** Later constructions of an initialized type *)

Lemma setattr_obj_classes name value :
  preserves (λ c, classes (globals c)) (setattr_obj name value).
Proof.
  intros c r c'. unfold setattr_obj.
  destruct (obj (this c)); by intros [= <- <-].
Qed.

Lemma setattr_obj_this name value : preserves this (setattr_obj name value).
Proof.
  intros c r c'. unfold setattr_obj.
  destruct (obj (this c)); by intros [= <- <-].
Qed.

Lemma setattr_type_this a v : preserves this (setattr_type a v).
Proof.
  intros c r c'. unfold setattr_type.
  destruct (obj (this c)); by intros [= <- <-].
Qed.

Lemma register_tostring_this argument :
  preserves this (register_tostring argument).
Proof.
  intros c r c'. unfold register_tostring.
  destruct (negb _); [apply setattr_type_this|].
  destruct (find_varstr _ _) as [[k []]|]; by intros [= <- <-].
Qed.

(** Once the type is initialized, adding an argument changes no class. *)
Lemma add_argument_classes argument c r c' :
  initialized c = true →
  add_argument argument c = (r, c') →
  classes (globals c') = classes (globals c).
Proof.
  intros Hinit. unfold add_argument, bind.
  destruct (check_consistency argument c) as [[[]|e] c1] eqn:Hcheck;
    pose proof (check_consistency_inv _ _ _ _ Hcheck) as (_ & Hinit1 & _);
    apply check_consistency_unchanged in Hcheck as [_ Hglobals];
    [|intros [= <- <-]; by rewrite Hglobals].
  fold (initialized c1). rewrite Hinit1, Hinit. simpl.
  intros H. apply setattr_obj_classes in H. by rewrite H, Hglobals.
Qed.

Lemma add_arguments_classes spec pairs c r c' :
  initialized c = true →
  add_arguments spec pairs c = (r, c') →
  classes (globals c') = classes (globals c) ∧ identity c' = identity c.
Proof.
  revert c. induction pairs as [|[name value] pairs IH]; intros c Hinit.
  - by intros [= <- <-].
  - rewrite add_arguments_cons.
    destruct (add_arguments spec [(name, value)] c) as [[[]|e] c1] eqn:Hstep.
    + pose proof (add_arguments_step _ _ _ _ _ _ Hstep) as (Hid & Hinit1 & _).
      assert (classes (globals c1) = classes (globals c)) as Hclasses.
      { simpl in Hstep. destruct (Argument_init _ _ _) as [argument|]; [|done].
        unfold bind in Hstep.
        destruct (add_argument argument c) as [[[]|] c2] eqn:Hadd; [|done].
        injection Hstep as <-. by apply (add_argument_classes _ _ _ _ Hinit Hadd). }
      intros Hrest. apply IH in Hrest as [Hclasses' Hid']; [|congruence].
      split; congruence.
    + pose proof (add_arguments_step _ _ _ _ _ _ Hstep) as (Hid & _ & _).
      intros [= <- <-]. split; [|done].
      simpl in Hstep. destruct (Argument_init _ _ _) as [argument|];
        [|by injection Hstep as _ <-].
      unfold bind in Hstep.
      destruct (add_argument argument c) as [[[]|] c2] eqn:Hadd; [done|].
      injection Hstep as _ <-. by apply (add_argument_classes _ _ _ _ Hinit Hadd).
Qed.

(** ** What the composer raises *)

Section RaisesOnly.
Variable E : exn → Prop.
Hypothesis E_TypeError : E TypeError.
Hypothesis E_AttributeError : E AttributeError.

Lemma raises_only_ret {A} (a : A) : raises_only E (ret a).
Proof. by intros c e c'. Qed.

Lemma raises_only_bind {A B} (m : M composer A) (k : A → M composer B) :
  raises_only E m → (∀ a, raises_only E (k a)) → raises_only E (bind m k).
Proof.
  intros Hm Hk c e c' H. apply bind_Raise in H as [H|(a & c1 & _ & H)].
  - exact (Hm _ _ _ H).
  - exact (Hk a _ _ _ H).
Qed.

Lemma raises_only_when_keyword kw argument m :
  raises_only E m → raises_only E (when_keyword kw argument m).
Proof.
  intros Hm. unfold when_keyword. case_bool_decide; [done|].
  apply raises_only_ret.
Qed.

Lemma setattr_type_raises a v : raises_only E (setattr_type a v).
Proof.
  intros c e c'. unfold setattr_type.
  destruct (obj (this c)); by intros [= <- <-].
Qed.

Lemma setattr_obj_raises name value : raises_only E (setattr_obj name value).
Proof.
  intros c e c'. unfold setattr_obj.
  destruct (obj (this c)); by intros [= <- <-].
Qed.

Lemma register_tostring_raises argument :
  raises_only E (register_tostring argument).
Proof.
  intros c e c'. unfold register_tostring.
  destruct (negb _); [apply setattr_type_raises|].
  destruct (find_varstr _ _) as [[k []]|]; by intros [= <- <-].
Qed.

Ltac sequence :=
  repeat first
    [ apply raises_only_ret
    | apply raises_only_when_keyword
    | apply register_tostring_raises
    | apply setattr_type_raises
    | apply raises_only_bind; [|intros ?] ].

Lemma install_raises argument : raises_only E (install argument).
Proof.
  intros c. unfold install.
  set (renamed := if bool_decide _ then _ else _). clearbody renamed.
  revert c.
  change (raises_only E
            (when_keyword "boolean" renamed (add_tobool renamed) ;;;
             when_keyword "number" renamed (add_tonumber renamed) ;;;
             when_keyword "string" renamed (register_tostring renamed) ;;;
             when_keyword "container" renamed
               (add_container_methods renamed) ;;;
             when_keyword "compare" renamed
               (add_comparison_methods renamed) ;;;
             ret renamed)).
  unfold add_tobool, add_tonumber, add_container_methods,
    add_comparison_methods.
  sequence.
Qed.

(** What [add_argument] raises is raised by [check_consistency], or is
    in [E]. *)
Lemma add_argument_Raise argument c e c' :
  add_argument argument c = (Raise e, c') →
  check_consistency argument c = (Raise e, c') ∨ E e.
Proof.
  unfold add_argument. intros H.
  apply bind_Raise in H as [H|([] & c1 & _ & H)]; [by left|]. right.
  apply bind_Raise in H as [H|(a & c2 & _ & H)].
  - destruct (negb _); [by apply install_raises in H | done].
  - by apply setattr_obj_raises in H.
Qed.
End RaisesOnly.

Lemma add_argument_keywords argument c c' :
  add_argument argument c = (Return (), c') →
  obj_keywords (this c') = obj_keywords (this c) ∪ arg_keywords argument.
Proof.
  unfold add_argument. intros H.
  apply bind_Return in H as ([] & c1 & Hcheck & H).
  apply bind_Return in H as (a & c2 & Hinstall & H).
  apply setattr_obj_this in H. apply check_consistency_state in Hcheck.
  assert (this c2 = this c1) as Hthis.
  { destruct (negb _).
    - by apply (install_P this (λ a v _, setattr_type_this a v)
                  register_tostring_this _ _ _ _ Hinstall).
    - by injection Hinstall as _ <-. }
  rewrite H, Hthis, Hcheck. done.
Qed.

Lemma check_type_Raise self e :
  check_type self = Raise e →
  e = ArgumentTypeError "__init__" (arg_name self) (AType <$> arg_types self)
        (type_of (arg_value self)).
Proof.
  unfold check_type. destruct (arg_types self); [done|].
  destruct (negb _); [|done]. by intros [= <-].
Qed.

Lemma Argument_init_Raise name value a e :
  Argument_init name value a = Raise e → no_annotation_error e.
Proof.
  unfold Argument_init.
  destruct (scan_annotations (_to_tuple a)) as [types keywords].
  destruct (check_type _) eqn:Hcheck; [done|].
  apply check_type_Raise in Hcheck. intros [= <-] error. by subst.
Qed.

(** The check passes when the keywords of the argument do not put [local]
    with an incompatible keyword and claim nothing that is claimed. *)
Lemma check_consistency_passes argument c :
  ("local" ∈ arg_keywords argument →
   ∀ k, k ∈ local_incompatible → k ∉ arg_keywords argument) →
  (∀ t, t ∈ uniques → t ∈ arg_keywords argument →
        t ∉ obj_keywords (this c)) →
  ∃ c', check_consistency argument c = (Return (), c').
Proof.
  intros Hlocal Hfree. unfold check_consistency.
  fold (incompatibles_of argument).
  assert (bool_decide ("local" ∈ arg_keywords argument)
          && negb (bool_decide (length (incompatibles_of argument) = 0))
          = false) as ->.
  { case_bool_decide as Hl; [|done]. simpl.
    rewrite bool_decide_eq_true_2; [done|].
    destruct (incompatibles_of argument) as [|k ks] eqn:Hks; [done|].
    assert (k ∈ incompatibles_of argument) as Hk by (rewrite Hks; by left).
    apply elem_of_incompatibles_of in Hk as [Hk Hinc].
    by destruct (Hlocal Hl k Hinc). }
  rewrite bool_decide_eq_true_2; [eauto|].
  apply set_eq. intros t. rewrite !elem_of_intersection, elem_of_list_to_set.
  split; [|by intros ?%not_elem_of_empty].
  intros [[Ht Hu] Hseen]. by destruct (Hfree t Hu Ht).
Qed.

Lemma add_arguments_consistent spec values i c r c' :
  correctly_declared spec →
  (∀ t, t ∈ obj_keywords (this c) →
        ∃ j m, j < i ∧ drop 1 (args spec) !! j = Some m
               ∧ t ∈ declared_keywords spec m) →
  add_arguments spec (zip (drop i (drop 1 (args spec))) values) c = (r, c') →
  match r with Raise e => no_annotation_error e | Return _ => True end.
Proof.
  intros [Hlocal Hunique]. set (fields := drop 1 (args spec)) in *.
  revert i c. induction values as [|value values IH]; intros i c Hseen.
  { rewrite zip_with_nil_r. by intros [= <- <-]. }
  destruct (fields !! i) as [name|] eqn:Hname.
  2: { rewrite drop_ge by by apply lookup_ge_None. by intros [= <- <-]. }
  rewrite (drop_S _ _ _ Hname). cbn [zip_with]. rewrite add_arguments_cons.
  destruct (add_arguments spec [(name, value)] c) as [[[]|e] c1] eqn:Hstep.
  - apply (IH (S i)). intros t Ht.
    simpl in Hstep. destruct (Argument_init _ _ _) as [argument|] eqn:Hinit;
      [|done].
    apply Argument_init_Return in Hinit as (_ & _ & Hkeywords).
    unfold bind in Hstep.
    destruct (add_argument argument c) as [[[]|] c2] eqn:Hadd; [|done].
    injection Hstep as <-. apply add_argument_keywords in Hadd.
    rewrite Hadd, Hkeywords in Ht. apply elem_of_union in Ht as [Ht|Ht].
    + destruct (Hseen t Ht) as (j & m & Hj & Hm & Htm).
      exists j, m. split_and!; [lia | done | done].
    + exists i, name. split_and!; [lia | done | done].
  - intros [= <- <-]. simpl in Hstep.
    destruct (Argument_init _ _ _) as [argument|e0] eqn:Hinit.
    2: { injection Hstep as <- _. by apply Argument_init_Raise in Hinit. }
    apply Argument_init_Return in Hinit as (_ & _ & Hkeywords).
    unfold bind in Hstep.
    destruct (add_argument argument c) as [[[]|e1] c2] eqn:Hadd; [done|].
    injection Hstep as <- <-.
    apply (add_argument_Raise no_annotation_error) in Hadd
      as [Hcheck|He]; [| |done|done]; [|done].
    destruct (check_consistency_passes argument c) as [c3 Hpass].
    + rewrite Hkeywords. intros Hl k Hk.
      apply (Hlocal name k); [|done|done].
      apply list_elem_of_lookup. eauto.
    + rewrite Hkeywords. intros t Hu Ht Hin.
      destruct (Hseen t Hin) as (j & m & Hj & Hm & Htm).
      apply (Hunique j i m name t); [lia|done..].
    + congruence.
Qed.

Lemma add_arguments_identity spec pairs c r c' :
  add_arguments spec pairs c = (r, c') →
  identity c' = identity c ∧ initialized c' = initialized c.
Proof.
  revert c. induction pairs as [|[name value] pairs IH]; intros c.
  - by intros [= <- <-].
  - rewrite add_arguments_cons.
    destruct (add_arguments spec [(name, value)] c) as [[[]|e] c1] eqn:Hstep;
      apply add_arguments_step in Hstep as (Hid & Hinit & _).
    + intros Hrest. apply IH in Hrest as [Hid' Hinit']. split; congruence.
    + by intros [= <- <-].
Qed.

Lemma finalize_raises (E : exn → Prop) :
  E TypeError → raises_only E finalize.
Proof.
  intros HE. unfold finalize. apply raises_only_bind.
  - intros c e c'. unfold add_tostring. destruct (hasattr_type _ _); [|done].
    by apply setattr_type_raises.
  - intros _. by apply setattr_type_raises.
Qed.

(** The initialization of an instance that returns leaves its class
    finalized. *)
Lemma initialize_finalized constructor arguments w w1 cls ref rest :
  complete_arguments (fn_spec constructor) arguments
  = Return (VInst cls ref :: rest) →
  initialize constructor arguments w = (Return (), w1) →
  finalized w1 cls.
Proof.
  intros Hcomplete. unfold initialize. rewrite Hcomplete.
  destruct (bind _ _ _) as [r c] eqn:Hrun. intros [= -> <-].
  apply bind_Return in Hrun as ([] & c1 & Hloop & Hfinalize).
  apply add_arguments_identity in Hloop as [[= Hobj Htype _] _].
  by apply (finalize_finalizes c1 c cls ref).
Qed.

(** C6: once a construction of an instance of a class went through, the
    class is marked initialized, and the initialization of any further
    instance of the class, in any world with the same classes, leaves
    every class as the first construction left it; for a correctly
    declared constructor it raises no [AnnotationError].  The decorated
    constructor then runs the body, or raises what the initialization
    raised. *)
Theorem second_construction_installs_nothing (constructor : function)
    (arguments1 arguments2 : list val) (kwargs : list (string * val))
    (w0 w1 w2 : world) (cls : pytype) (ref1 ref2 : nat)
    (rest1 rest2 : list val) :
  let spec := fn_spec constructor in
  complete_arguments spec arguments1 = Return (VInst cls ref1 :: rest1) →
  initialize constructor arguments1 w0 = (Return (), w1) →
  classes w2 = classes w1 →
  _enabled w2 = true →
  complete_arguments spec arguments2 = Return (VInst cls ref2 :: rest2) →
  class_hasattr w1 cls "_initialized" = true
  ∧ classes (initialize constructor arguments2 w2).2 = classes w1
  ∧ (correctly_declared spec →
     ∀ error,
       (initialize constructor arguments2 w2).1
       ≠ Raise (AnnotationError error))
  ∧ init constructor arguments2 kwargs w2
    = match initialize constructor arguments2 w2 with
      | (Return _, w3) => fn_body constructor arguments2 kwargs w3
      | (Raise e, w3) => (Raise e, w3)
      end.
Proof.
  intros spec Hcomplete1 Hfirst Hclasses Hon Hcomplete2.
  pose proof (initialize_finalized _ _ _ _ _ _ _ Hcomplete1 Hfirst) as Hfin.
  split; [by apply finalized_initialized|].
  assert (finalized w2 cls) as Hfin2 by by apply (finalized_classes w1).
  split_and!; [| |by unfold init; rewrite Hon].
  - unfold initialize. fold spec. rewrite Hcomplete2.
    set (c0 := Composer (Object_init (VInst cls ref2)) w2).
    assert (initialized c0 = true) as Hinit
        by by apply finalized_initialized.
    unfold bind.
    destruct (add_arguments spec _ c0) as [[[]|e] c1] eqn:Hloop;
      apply add_arguments_classes in Hloop as [Hsame [= Hobj Htype _]];
      try done; simpl in Hsame, Hobj, Htype.
    + destruct (finalize_again c1 cls ref2) as (c' & -> & Hsame'); try done.
      * apply (finalized_classes w2); [by rewrite Hsame | done].
      * simpl. congruence.
    + simpl. congruence.
  - intros Hdeclared error. unfold initialize. fold spec. rewrite Hcomplete2.
    set (c0 := Composer (Object_init (VInst cls ref2)) w2).
    unfold bind.
    destruct (add_arguments spec _ c0) as [[[]|e] c1] eqn:Hloop.
    + destruct (finalize c1) as [[[]|e] c'] eqn:Hfinalize; [done|]. simpl.
      intros [= ->].
      apply (finalize_raises no_annotation_error) in Hfinalize;
        [by apply (Hfinalize error) | by intros ?].
    + simpl. intros [= ->].
      apply (add_arguments_consistent spec rest2 0 c0) in Hloop;
        [by apply (Hloop error) | done |].
      intros t Ht. by apply not_elem_of_empty in Ht.
Qed.

Lemma Point_init_correctly_declared : correctly_declared (fn_spec Point_init).
Proof.
  split.
  - intros name k Hname Hlocal _. exfalso. revert Hlocal.
    apply elem_of_cons in Hname as [->|Hname];
      [|apply list_elem_of_singleton in Hname as ->]; compute_done.
  - intros i j n m t Hij Hn Hm Ht.
    destruct i as [|[|i]]; simpl in Hn; try done;
      destruct j as [|[|j]]; simpl in Hm; try done;
      injection Hn as <-; injection Hm as <-;
      unfold uniques in Ht;
      repeat (apply elem_of_cons in Ht as [->|Ht]);
      try (by apply elem_of_nil in Ht); compute_done.
Qed.

Lemma second_construction_installs_nothing_witness :
  let w1 := (initialize Point_init [VInst Point 0; VInt 3] fresh).2 in
  class_hasattr w1 Point "_initialized" = true
  ∧ classes (initialize Point_init [VInst Point 1; VInt 4] w1).2 = classes w1
  ∧ ∀ error, (initialize Point_init [VInst Point 1; VInt 4] w1).1
             ≠ Raise (AnnotationError error).
Proof.
  intros w1.
  destruct (second_construction_installs_nothing Point_init
              [VInst Point 0; VInt 3] [VInst Point 1; VInt 4] [] fresh w1 w1
              Point 0 1 [VInt 3; VStr "p"] [VInt 4; VStr "p"]
              eq_refl ltac:(vm_compute; reflexivity) eq_refl eq_refl eq_refl)
    as (Hmark & Hclasses & Hraise & _).
  split_and!; [exact Hmark | exact Hclasses |].
  exact (Hraise Point_init_correctly_declared).
Defined.

(** ** More on the checks of [strict] *)

(** X1: [_type_ok] accepts a value exactly when its type is a subclass of
    a type among [expected], or it is [None] and the string ['nonable'] is
    among [expected]. *)
Theorem _type_ok_iff (value : val) (expected : list annot) :
  _type_ok value expected = true
  ↔ (∃ t, AType t ∈ expected ∧ issubclass (type_of value) t = true)
    ∨ (value = VNone ∧ AStr "nonable" ∈ expected).
Proof.
  unfold _type_ok, isinstance.
  rewrite orb_true_iff, andb_true_iff, !existsb_exists. split.
  - intros [(t & Hin & Hsub)|[(a & Hin & Ha) Hnone]].
    + left. exists t. split; [|done].
      apply list_elem_of_In, list_elem_of_omap in Hin as ([] & Hin & Heq);
        simplify_eq. done.
    + right. destruct value; try done. split; [done|].
      apply list_elem_of_In in Hin. destruct a; try done.
      by apply bool_decide_eq_true_1 in Ha as ->.
  - intros [(t & Hin & Hsub)|[-> Hin]].
    + left. exists t. split; [|done].
      apply list_elem_of_In, list_elem_of_omap. by exists (AType t).
    + right. split; [|done]. exists (AStr "nonable").
      split; [by apply list_elem_of_In|]. by apply bool_decide_eq_true_2.
Qed.

Lemma check_positional_unannotated funcname spec pairs :
  annotations spec = ∅ → check_positional funcname spec pairs = Return ().
Proof.
  intros Hnone. induction pairs as [|[name value] pairs IH]; [done|].
  simpl. by rewrite Hnone, lookup_empty.
Qed.

(** X2: a function without any annotation is not affected by [strict]:
    whatever the toggle, the wrapped call is the call of the function,
    provided the function has a positional parameter or is called without
    positional arguments. *)
Theorem strict_unannotated_transparent (func : function)
    (arguments : list val) (kwargs : list (string * val)) (w : world) :
  annotations (fn_spec func) = ∅ →
  args (fn_spec func) ≠ [] ∨ arguments = [] →
  strict func arguments kwargs w = fn_body func arguments kwargs w.
Proof.
  intros Hnone Hshape. unfold strict.
  destruct (_enabled w); [|done]. simpl.
  assert (arguments_check (fn_name func) (fn_spec func) arguments = Return ())
    as ->.
  { unfold arguments_check, positional_pairs.
    destruct Hshape as [Hargs| ->]; [|done].
    destruct (_ && _); [|done].
    destruct (args (fn_spec func)); [done|].
    by apply check_positional_unannotated. }
  destruct (fn_body func arguments kwargs w) as [[result|e] w']; [|done].
  unfold return_check. by rewrite Hnone, lookup_empty.
Qed.

Lemma strict_unannotated_transparent_witness :
  strict identity_function [VInt 1] [] fresh = (Return (VInt 1), fresh).
Proof.
  assert (args (fn_spec identity_function) ≠ [] ∨ [VInt 1] = []) as Hshape
      by (left; discriminate).
  exact (strict_unannotated_transparent identity_function [VInt 1] [] fresh
           eq_refl Hshape).
Defined.

(** X3: with the toggle on, a function that declares no positional
    parameter and is called with a positional argument makes [strict]
    raise [IndexError], before the body runs: the check reads
    [spec.args[0]]. *)
Theorem strict_without_parameters_IndexError (func : function)
    (arguments : list val) (kwargs : list (string * val)) (w : world) :
  _enabled w = true →
  args (fn_spec func) = [] → arguments ≠ [] →
  strict func arguments kwargs w = (Raise IndexError, w).
Proof.
  intros Hon Hargs Hsome. unfold strict. rewrite Hon. simpl.
  unfold arguments_check, positional_pairs. rewrite Hargs.
  destruct arguments; [done|]. reflexivity.
Qed.

Lemma strict_without_parameters_IndexError_witness :
  strict total_function [VInt 1; VInt 2] [] fresh = (Raise IndexError, fresh).
Proof.
  assert ([VInt 1; VInt 2] ≠ []) as Hsome by discriminate.
  exact (strict_without_parameters_IndexError total_function
           [VInt 1; VInt 2] [] fresh eq_refl eq_refl Hsome).
Defined.

(** X4: [strict] cannot be applied over an already decorated callable: the
    closures [checker] and [__init] declare no positional parameter, so
    with the toggle on every call with a positional argument raises
    [IndexError] and the decorated callable is not run. *)
Theorem strict_over_decorated_IndexError (func : function)
    (arguments : list val) (kwargs : list (string * val)) (w : world) :
  _enabled w = true → arguments ≠ [] →
  strict (strict_function func) arguments kwargs w = (Raise IndexError, w)
  ∧ strict (init_function func) arguments kwargs w = (Raise IndexError, w).
Proof.
  intros Hon Hsome.
  split; unfold strict; rewrite Hon; simpl;
    unfold arguments_check, positional_pairs; simpl;
    by destruct arguments.
Qed.

Lemma strict_over_decorated_IndexError_witness :
  strict (init_function Point_init) [VInst Point 0; VInt 3] [] fresh
  = (Raise IndexError, fresh).
Proof.
  assert ([VInst Point 0; VInt 3] ≠ []) as Hsome by discriminate.
  exact (proj2 (strict_over_decorated_IndexError Point_init
                  [VInst Point 0; VInt 3] [] fresh eq_refl Hsome)).
Defined.

Lemma check_positional_first funcname spec pairs k name value a :
  pairs !! k = Some (name, value) →
  annotations spec !! name = Some a →
  _type_ok value (_to_tuple a) = false →
  (∀ j n v a', j < k → pairs !! j = Some (n, v) →
               annotations spec !! n = Some a' →
               _type_ok v (_to_tuple a') = true) →
  check_positional funcname spec pairs
  = Raise (ArgumentTypeError funcname name (_to_tuple a) (type_of value)).
Proof.
  revert k. induction pairs as [|[n v] pairs IH]; intros k Hk Ha Hbad Hbefore.
  { done. }
  destruct k as [|k]; simpl in *.
  - injection Hk as -> ->. by rewrite Ha, Hbad.
  - assert (check_positional funcname spec pairs
            = Raise (ArgumentTypeError funcname name (_to_tuple a)
                       (type_of value))) as Hrest.
    { apply (IH k); auto. intros j n' v' a' Hj. apply (Hbefore (S j)). lia. }
    destruct (annotations spec !! n) as [a'|] eqn:Hn; [|done].
    by rewrite (Hbefore 0 n v a' ltac:(lia) eq_refl Hn).
Qed.

(** X5: with the toggle on, the error of [strict] is that of the first
    offending argument: when the argument at position [k] fails the
    annotation of its parameter and every validated argument before it
    passes, the call raises the [ArgumentTypeError] of that parameter,
    with its annotation and the type of that argument, and the body is not
    run. *)
Theorem strict_reports_first_offender (func : function)
    (arguments : list val) (kwargs : list (string * val)) (w : world)
    (k : nat) (name : string) (value : val) (a : annotation) :
  _enabled w = true →
  args (fn_spec func) !! k = Some name → arguments !! k = Some value →
  ¬ (k = 0 ∧ name = "self") →
  annotations (fn_spec func) !! name = Some a →
  _type_ok value (_to_tuple a) = false →
  (∀ j n v a', j < k → ¬ (j = 0 ∧ n = "self") →
               args (fn_spec func) !! j = Some n → arguments !! j = Some v →
               annotations (fn_spec func) !! n = Some a' →
               _type_ok v (_to_tuple a') = true) →
  strict func arguments kwargs w
  = (Raise (ArgumentTypeError (fn_name func) name (_to_tuple a)
              (type_of value)), w).
Proof.
  intros Hon Hname Hvalue Hself Ha Hbad Hbefore.
  unfold strict. rewrite Hon. simpl.
  assert (length arguments ≠ 0) by (destruct arguments; naive_solver).
  assert (args (fn_spec func) ≠ ["self"]).
  { intros Heq. rewrite Heq in Hname.
    destruct k as [|[|k]]; simpl in Hname; naive_solver. }
  unfold arguments_check, positional_pairs.
  rewrite !bool_decide_eq_false_2 by done. simpl.
  destruct (args (fn_spec func)) as [|a0 params] eqn:Hargs; [done|].
  set (i := if bool_decide (a0 = "self") then 1 else 0).
  assert (i ≤ k)%nat as Hik.
  { unfold i. case_bool_decide as Ha0; [|lia].
    destruct k; [|lia]. simpl in Hname. naive_solver. }
  rewrite (check_positional_first _ _ _ (k - i) name value a); auto.
  - apply lookup_zip_with_Some. exists name, value.
    rewrite !lookup_drop. by replace (i + (k - i)) with k by lia.
  - intros j n v a' Hj Hpair Hn.
    apply lookup_zip_with_Some in Hpair as (n' & v' & [= <- <-] & Hn' & Hv').
    rewrite lookup_drop in Hn'. rewrite lookup_drop in Hv'.
    apply (Hbefore (i + j) n v a'); auto; [lia|].
    intros [Hzero ->]. assert (i = 0 ∧ j = 0) as [Hi ->] by lia.
    rewrite Hi in Hn'. simpl in Hn'. injection Hn' as ->.
    unfold i in Hi. by rewrite bool_decide_eq_true_2 in Hi.
Qed.

Lemma strict_reports_first_offender_witness :
  strict (rename (returns (VStr "r"))) [VInt 1; VStr "2"] [] fresh
  = (Raise (ArgumentTypeError "rename" "n" [AType int_t] str_t), fresh).
Proof.
  assert (¬ (1 = 0 ∧ "n" = "self")) as Hself by (intros [H _]; discriminate H).
  assert (∀ j n v a', j < 1 → ¬ (j = 0 ∧ n = "self") →
            args (fn_spec (rename (returns (VStr "r")))) !! j = Some n →
            [VInt 1; VStr "2"] !! j = Some v →
            annotations (fn_spec (rename (returns (VStr "r")))) !! n = Some a' →
            _type_ok v (_to_tuple a') = true) as Hbefore.
  { intros j n v a' Hj Hnot Hn. destruct j; [|lia].
    injection Hn as <-. by destruct Hnot. }
  exact (strict_reports_first_offender (rename (returns (VStr "r")))
           [VInt 1; VStr "2"] [] fresh 1 "n" (VStr "2")
           (ASingle (AType int_t)) eq_refl eq_refl eq_refl Hself eq_refl
           eq_refl Hbefore).
Defined.

Lemma zip_with_longer {A B C} (f : A → B → C) l k k' :
  (length l ≤ length k)%nat → zip_with f l (k ++ k') = zip_with f l k.
Proof.
  revert k. induction l as [|x l IH]; intros [|y k] Hlen; simpl in *;
    try done; try lia.
  f_equal. apply IH. lia.
Qed.

(** X6: positional values past the declared parameters are not validated:
    for a function with a positional parameter, values added after as
    many arguments as there are parameters do not change the outcome of
    the arguments check. *)
Theorem extra_positionals_not_validated (funcname : string)
    (spec : FullArgSpec) (arguments extra : list val) :
  args spec ≠ [] →
  (length (args spec) ≤ length arguments)%nat →
  arguments_check funcname spec (arguments ++ extra)
  = arguments_check funcname spec arguments.
Proof.
  intros Hargs Hlen. unfold arguments_check, positional_pairs.
  destruct (args spec) as [|a0 params] eqn:Hspec; [done|].
  assert (length arguments ≠ 0) by (simpl in Hlen; lia).
  assert (length (arguments ++ extra) ≠ 0) by (rewrite length_app; lia).
  rewrite (bool_decide_eq_false_2 (length arguments = 0)) by done.
  rewrite (bool_decide_eq_false_2 (length (arguments ++ extra) = 0)) by done.
  destruct (bool_decide (a0 :: params = ["self"])); [done|].
  cbn [negb andb]. f_equal.
  set (i := if bool_decide (a0 = "self") then 1 else 0).
  assert (i ≤ 1)%nat by (unfold i; case_bool_decide; lia).
  rewrite drop_app_le by (simpl in Hlen; lia).
  apply zip_with_longer. rewrite !length_drop. lia.
Qed.

Lemma extra_positionals_not_validated_witness :
  arguments_check "describe" describe_spec [VInt 5; VStr "more"; VNone]
  = Return ().
Proof.
  assert (args describe_spec ≠ []) as Hargs by discriminate.
  assert (length (args describe_spec) ≤ length [VInt 5])%nat as Hlen
      by (simpl; lia).
  exact (extra_positionals_not_validated "describe" describe_spec [VInt 5]
           [VStr "more"; VNone] Hargs Hlen).
Defined.

(** ** More on the arguments of a constructor *)

Lemma fold_scan_step_keywords l acc :
  (fold_left scan_step l acc).2
  = match last_string l with
    | Some s => list_to_set (split s)
    | None => acc.2
    end.
Proof.
  revert acc. induction l as [|a l IH]; intros acc; [done|].
  simpl. rewrite IH. unfold last_string. destruct a as [t|s|]; simpl; try done.
  rewrite last_cons. by destruct (last _).
Qed.

(** X7: an [Argument] that is built has the name and the value it was
    given; its types are the elements of the annotation that are types,
    in order; its keywords are the words of the last string of the
    annotation, the strings before it being dropped, and there is none
    without a string. *)
Theorem Argument_init_fields (name : string) (value : val)
    (annotations : annotation) (self : Argument) :
  Argument_init name value annotations = Return self →
  arg_name self = name ∧ arg_value self = value
  ∧ arg_types self
    = omap (λ a, match a with AType t => Some t | _ => None end)
        (_to_tuple annotations)
  ∧ arg_keywords self
    = match last_string (_to_tuple annotations) with
      | Some s => list_to_set (split s)
      | None => ∅
      end.
Proof.
  intros Hinit. unfold Argument_init in Hinit.
  pose proof (scan_annotations_types (_to_tuple annotations)) as Htypes.
  pose proof (fold_scan_step_keywords (_to_tuple annotations) ([], ∅))
    as Hkeywords.
  rewrite <- scan_annotations_fold in Hkeywords.
  destruct (scan_annotations (_to_tuple annotations)) as [types keywords].
  destruct (check_type _); [|done]. injection Hinit as <-. by simpl in *.
Qed.

Lemma Argument_init_fields_witness :
  arg_keywords
    {| arg_name := "n"; arg_value := VInt 1; arg_types := [int_t];
       arg_keywords := {[ "private" ]} |}
  = list_to_set (split "private").
Proof.
  exact (proj2 (proj2 (proj2
           (Argument_init_fields "n" (VInt 1)
              (ATuple [AStr "boolean number"; AType int_t; AStr "private"])
              _ ltac:(vm_compute; reflexivity))))).
Defined.

(** X8: a parameter without annotation becomes a plain attribute of the
    instance: the step of the loop checks nothing, installs nothing and
    leaves the keywords of the object as they are. *)
Theorem unannotated_field_assigned (spec : FullArgSpec) (name : string)
    (value : val) (c : composer) (cls : pytype) (ref : nat) :
  annotations spec !! name = None →
  obj (this c) = VInst cls ref →
  add_arguments spec [(name, value)] c
  = (Return (),
     set_instances (<[ref := <[name := value]> (default ∅ (insts c !! ref))]>
                      (insts c)) c).
Proof.
  intros Hnone Hobj. destruct c as [[o t n k] w]. simpl in Hobj. subst o.
  simpl. rewrite Hnone. simpl.
  unfold add_argument, bind, check_consistency. simpl.
  rewrite (bool_decide_eq_false_2 ("local" ∈ (∅ : gset string)))
    by apply not_elem_of_empty.
  cbn [andb negb].
  rewrite (bool_decide_eq_true_2 ((∅ : gset string) ∩ _ ∩ k = ∅))
    by (apply set_eq; intros x; rewrite !elem_of_intersection;
        split; [by intros [[?%not_elem_of_empty _] _]
               | by intros ?%not_elem_of_empty]).
  cbn [negb]. unfold set_keywords. simpl.
  rewrite (right_id_L ∅ (∪) k).
  unfold install, when_keyword, bind, ret. simpl.
  rewrite !(bool_decide_eq_false_2 (_ ∈ (∅ : gset string)))
    by apply not_elem_of_empty.
  by destruct (negb _).
Qed.

Lemma unannotated_field_assigned_witness :
  (add_arguments (fn_spec Triple_init) [("w", VInt 7)] first_point).2
  = Composer (Object_init (VInst Point 0))
      (World true ∅ {[ 0%nat := {[ "w" := VInt 7 ]} ]}).
Proof.
  apply (eq_trans
           (f_equal snd
              (unannotated_field_assigned (fn_spec Triple_init) "w" (VInt 7)
                 first_point Point 0 eq_refl eq_refl))).
  vm_compute; reflexivity.
Defined.

(** ** What the whole pipeline leaves as it was *)

(** Whatever the steps of the loop leave unchanged, the loop leaves
    unchanged. *)
Section Loop.
Context {X : Type} (P : composer → X).
Hypothesis check_consistency_P :
  ∀ argument, preserves P (check_consistency argument).
Hypothesis setattr_type_P :
  ∀ a v, a ∈ installed_attributes → preserves P (setattr_type a v).
Hypothesis register_tostring_P :
  ∀ argument, preserves P (register_tostring argument).
Hypothesis setattr_obj_P : ∀ name value, preserves P (setattr_obj name value).

Ltac written := apply setattr_type_P; compute_done.

Lemma install_loop argument : preserves P (install argument).
Proof.
  intros c r c'. unfold install.
  set (renamed := if bool_decide _ then _ else _). clearbody renamed.
  revert c r c'.
  change (preserves P
            (when_keyword "boolean" renamed (add_tobool renamed) ;;;
             when_keyword "number" renamed (add_tonumber renamed) ;;;
             when_keyword "string" renamed (register_tostring renamed) ;;;
             when_keyword "container" renamed
               (add_container_methods renamed) ;;;
             when_keyword "compare" renamed
               (add_comparison_methods renamed) ;;;
             ret renamed)).
  unfold add_tobool, add_tonumber, add_container_methods,
    add_comparison_methods.
  repeat first
    [ apply preserves_ret
    | apply preserves_when_keyword
    | apply register_tostring_P
    | written
    | apply preserves_bind; [|intros ?] ].
Qed.

Lemma add_argument_loop argument : preserves P (add_argument argument).
Proof.
  unfold add_argument.
  apply preserves_bind; [apply check_consistency_P|intros _].
  apply preserves_bind; [|intros a; apply setattr_obj_P].
  intros c r c'. destruct (negb _); [apply install_loop|].
  by intros [= <- <-].
Qed.

Lemma add_arguments_loop spec pairs : preserves P (add_arguments spec pairs).
Proof.
  induction pairs as [|[name value] pairs IH]; [apply preserves_ret|].
  intros c r c'. simpl.
  destruct (Argument_init _ _ _) as [argument|e]; [|by intros [= <- <-]].
  revert c r c'. apply preserves_bind; [apply add_argument_loop|done].
Qed.
End Loop.

Lemma check_consistency_globals {X} (f : world → X) argument :
  preserves (λ c, f (globals c)) (check_consistency argument).
Proof.
  intros c r c' H. by apply check_consistency_unchanged in H as [_ ->].
Qed.

Lemma finalize_frame {X} (P : composer → X) :
  (∀ a v, a ∈ finalize_attributes → preserves P (setattr_type a v)) →
  preserves P finalize.
Proof.
  intros Hset. unfold finalize. apply preserves_bind.
  - intros c r c'. unfold add_tostring. destruct (hasattr_type _ _).
    + apply Hset. compute_done.
    + by intros [= <- <-].
  - intros _. apply Hset. compute_done.
Qed.

(** Writing the attribute [b] of the class of the instance leaves the
    attribute [a] of every class as it was. *)
Lemma setattr_type_other k a b v :
  a ≠ b → preserves (λ c, namespace (globals c) k !! a) (setattr_type b v).
Proof.
  intros Hab c r c'. unfold setattr_type.
  destruct (obj (this c)); intros [= <- <-]; try done.
  unfold set_classes. simpl. rewrite namespace_update.
  case_decide; [|done]. subst. by rewrite lookup_insert_ne.
Qed.

Lemma register_tostring_other k a argument :
  a ≠ "_varstr" →
  preserves (λ c, namespace (globals c) k !! a) (register_tostring argument).
Proof.
  intros Ha c r c'. unfold register_tostring.
  destruct (negb _); [by apply setattr_type_other|].
  destruct (find_varstr _ _) as [[k' []]|]; intros [= <- <-]; try done.
  unfold set_classes. simpl. rewrite namespace_update.
  case_decide; [|done]. subst. by rewrite lookup_insert_ne.
Qed.

Lemma setattr_obj_globals_classes {X} (f : gmap string (gmap string cattr) → X)
    name value :
  preserves (λ c, f (classes (globals c))) (setattr_obj name value).
Proof.
  intros c r c'. unfold setattr_obj.
  destruct (obj (this c)); by intros [= <- <-].
Qed.

(** X9: the initialization writes class attributes among a fixed set
    only: whether it returns or raises, every attribute of every class
    outside [installed_attributes] and [finalize_attributes] is as
    before; [__len__] is such an attribute, so the container capability
    comes without [len()]. *)
Theorem initialize_writes_known_attributes (constructor : function)
    (arguments : list val) (w w1 : world) (r : outcome unit)
    (k a : string) :
  a ∉ installed_attributes → a ∉ finalize_attributes →
  initialize constructor arguments w = (r, w1) →
  namespace w1 k !! a = namespace w k !! a
  ∧ ("__len__" ∉ installed_attributes) ∧ ("__len__" ∉ finalize_attributes).
Proof.
  intros Hinstalled Hfinalize Hrun. split; [|split; compute_done].
  unfold initialize in Hrun.
  destruct (complete_arguments _ _) as [[|receiver rest]|];
    [by injection Hrun as _ <- | | by injection Hrun as _ <-].
  destruct (bind _ _ _) as [r' c'] eqn:Hbind. injection Hrun as _ <-.
  revert Hbind.
  apply (preserves_bind (λ c, namespace (globals c) k !! a)).
  - apply add_arguments_loop.
    + intros argument. apply (check_consistency_globals (λ w, namespace w k !! a)).
    + intros b v Hb. apply setattr_type_other. by intros ->.
    + intros argument. apply register_tostring_other.
      intros ->. apply Hinstalled. compute_done.
    + intros name value.
      apply (setattr_obj_globals_classes (λ cs, default ∅ (cs !! k) !! a)).
  - intros _. apply finalize_frame. intros b v Hb.
    apply setattr_type_other. by intros ->.
Qed.

Lemma initialize_writes_known_attributes_witness :
  namespace (initialize Point_init [VInst Point 0; VInt 3] fresh).2 "Point"
    !! "__len__" = None.
Proof.
  assert ("__len__" ∉ installed_attributes) as H1 by compute_done.
  assert ("__len__" ∉ finalize_attributes) as H2 by compute_done.
  exact (proj1 (initialize_writes_known_attributes Point_init
                  [VInst Point 0; VInt 3] fresh _ _ "Point" "__len__" H1 H2
                  (surjective_pairing _))).
Defined.

(** ** The decorated constructor, when it goes through *)

Lemma finalize_insts : preserves insts finalize.
Proof.
  apply finalize_frame. intros a v _. apply setattr_type_insts.
Qed.

(** X10: when the initialization of an instance returns, the decorated
    constructor runs the constructor body, with the arguments of the
    call, in a world where every declared parameter that got a value has
    been assigned on the instance, in order, under its attached name; no
    other instance is touched. *)
Theorem init_assigns_fields (constructor : function) (arguments : list val)
    (kwargs : list (string * val)) (w w1 : world) (cls : pytype) (ref : nat)
    (rest : list val) :
  let spec := fn_spec constructor in
  let c0 := Composer (Object_init (VInst cls ref)) w in
  _enabled w = true →
  complete_arguments spec arguments = Return (VInst cls ref :: rest) →
  initialize constructor arguments w = (Return (), w1) →
  init constructor arguments kwargs w
  = fn_body constructor arguments kwargs w1
  ∧ default ∅ (instances w1 !! ref)
    = assign (default ∅ (instances w !! ref))
        (attached spec c0 (zip (drop 1 (args spec)) rest))
  ∧ ∀ ref', ref' ≠ ref → instances w1 !! ref' = instances w !! ref'.
Proof.
  intros spec c0 Hon Hcomplete Hrun. split.
  { unfold init. by rewrite Hon, Hrun. }
  unfold initialize in Hrun. fold spec in Hrun. rewrite Hcomplete in Hrun.
  fold c0 in Hrun.
  destruct (bind _ _ c0) as [r c2] eqn:Hbind. injection Hrun as -> <-.
  apply bind_Return in Hbind as ([] & c1 & Hloop & Hfinalize).
  apply finalize_insts in Hfinalize.
  apply (add_arguments_attached spec _ c0 c1 cls ref eq_refl) in Hloop
    as (_ & _ & Hother & Hthis).
  fold (insts c2). rewrite Hfinalize. split; [exact Hthis|exact Hother].
Qed.

Lemma init_assigns_fields_witness :
  init Point_init [VInst Point 0; VInt 3] [] fresh
  = (Return VNone, (initialize Point_init [VInst Point 0; VInt 3] fresh).2)
  ∧ default ∅ ((initialize Point_init [VInst Point 0; VInt 3] fresh).2.(instances)
                 !! 0%nat)
    = {[ "_Point__x" := VInt 3; "label" := VStr "p" ]}.
Proof.
  destruct (init_assigns_fields Point_init [VInst Point 0; VInt 3] [] fresh
              (initialize Point_init [VInst Point 0; VInt 3] fresh).2
              Point 0 [VInt 3; VStr "p"] eq_refl eq_refl
              ltac:(vm_compute; reflexivity)) as (Hcall & Hfields & _).
  split.
  - exact Hcall.
  - apply (eq_trans Hfields). vm_compute; reflexivity.
Defined.

(** X11: [complete_arguments] gives every parameter that has no
    positional value its own default: with [n] parameters, the last of
    which have the defaults [d], and enough defaults for the missing
    values, the completed list has [n] values, starts with the positional
    ones, and holds at each further position [k] the default
    [d[k - (n - len(d))]] of parameter [k]. *)
Theorem complete_arguments_defaults (spec : FullArgSpec)
    (arguments d : list val) :
  let n := length (args spec) in
  defaults spec = Some d →
  (length d ≤ n)%nat →
  (length arguments ≤ n)%nat →
  (n - length arguments ≤ length d)%nat →
  ∃ completed,
    complete_arguments spec arguments = Return completed
    ∧ length completed = n
    ∧ (∀ k, (k < length arguments)%nat → completed !! k = arguments !! k)
    ∧ (∀ k, (length arguments ≤ k)%nat → (k < n)%nat →
            completed !! k = d !! (k - (n - length d))%nat).
Proof.
  intros n Hd Hdn Han Hmissing. unfold complete_arguments. fold n.
  rewrite Hd. destruct (length arguments <? n)%nat eqn:Hlt.
  - apply Nat.ltb_lt in Hlt. eexists. split; [done|]. split_and!.
    + rewrite length_app, length_drop. lia.
    + intros k Hk. by rewrite lookup_app_l.
    + intros k Hk Hkn. rewrite lookup_app_r, lookup_drop by done.
      f_equal. lia.
  - apply Nat.ltb_ge in Hlt. exists arguments. split_and!; [done|lia|done|].
    intros k Hk Hkn. lia.
Qed.

Lemma complete_arguments_defaults_witness :
  ∃ completed,
    complete_arguments (fn_spec Point_init) [VInst Point 0; VInt 3]
    = Return completed
    ∧ completed !! 2%nat = Some (VStr "p").
Proof.
  destruct (complete_arguments_defaults (fn_spec Point_init)
              [VInst Point 0; VInt 3] [VStr "p"] eq_refl
              ltac:(simpl; lia) ltac:(simpl; lia) ltac:(simpl; lia))
    as (completed & Hrun & _ & _ & Hdefault).
  exists completed. split; [exact Hrun|].
  exact (Hdefault 2%nat ltac:(simpl; lia) ltac:(simpl; lia)).
Defined.

(** X12: with the toggle on, a constructor without defaults that gets
    fewer positional values than it has parameters, a parameter given by
    keyword for instance, makes the decorated constructor raise
    [TypeError] before anything is checked or assigned and before the
    body runs; without any value for the receiver it raises
    [IndexError]. *)
Theorem init_missing_positional (constructor : function)
    (arguments : list val) (kwargs : list (string * val)) (w : world) :
  _enabled w = true →
  (defaults (fn_spec constructor) = None →
   (length arguments < length (args (fn_spec constructor)))%nat →
   init constructor arguments kwargs w = (Raise TypeError, w))
  ∧ (args (fn_spec constructor) = [] → arguments = [] →
     init constructor arguments kwargs w = (Raise IndexError, w)).
Proof.
  intros Hon. split.
  - intros Hnone Hlt. unfold init, initialize, complete_arguments.
    rewrite Hon, Hnone. apply Nat.ltb_lt in Hlt. by rewrite Hlt.
  - intros Hargs ->. unfold init, initialize, complete_arguments.
    by rewrite Hon, Hargs.
Qed.

Lemma init_missing_positional_witness :
  init Triple_init [VInst Triple 0; VInt 1] [("y", VInt 2); ("z", VInt 3)]
    fresh
  = (Raise TypeError, fresh).
Proof.
  exact (proj1 (init_missing_positional Triple_init [VInst Triple 0; VInt 1]
                  [("y", VInt 2); ("z", VInt 3)] fresh eq_refl)
           eq_refl ltac:(simpl; lia)).
Defined.

(** ** When a type gets marked *)

Lemma setattr_type_Raise a v c e c' :
  setattr_type a v c = (Raise e, c') → c' = c.
Proof.
  unfold setattr_type. destruct (obj (this c)); by intros [= <-].
Qed.

Lemma setattr_type_Return a v c c' :
  setattr_type a v c = (Return (), c') →
  ∃ cls ref, obj (this c) = VInst cls ref.
Proof.
  unfold setattr_type. destruct (obj (this c)); intros [= <-]; eauto.
Qed.

Lemma setattr_type_marked t a v :
  a ≠ "_initialized" →
  preserves (λ c, class_hasattr (globals c) t "_initialized")
    (setattr_type a v).
Proof.
  intros Ha c r c'. unfold setattr_type.
  destruct (obj (this c)); intros [= <- <-]; try done.
  unfold set_classes. simpl. by apply class_hasattr_update.
Qed.

Lemma register_tostring_marked t argument :
  preserves (λ c, class_hasattr (globals c) t "_initialized")
    (register_tostring argument).
Proof.
  intros c r c'. unfold register_tostring.
  destruct (negb _); [by apply setattr_type_marked|].
  destruct (find_varstr _ _) as [[k []]|]; intros [= <- <-]; try done.
  unfold set_classes. simpl. by apply class_hasattr_update.
Qed.

Lemma add_arguments_marked t spec pairs :
  preserves (λ c, class_hasattr (globals c) t "_initialized")
    (add_arguments spec pairs).
Proof.
  apply add_arguments_loop.
  - intros argument.
    apply (check_consistency_globals (λ w, class_hasattr w t "_initialized")).
  - intros a v Ha. apply setattr_type_marked. intros ->. revert Ha.
    compute_done.
  - apply register_tostring_marked.
  - intros name value c r c'. unfold setattr_obj.
    destruct (obj (this c)); by intros [= <- <-].
Qed.

(** X13: a type is marked initialized by an initialization that returns,
    and by no other: when the initialization raises, whether a class has
    [_initialized] in reach is as before, so the capabilities are
    installed again by the next construction; when it returns, the
    receiver is an instance and its class has the mark. *)
Theorem initialized_only_by_success (constructor : function)
    (arguments : list val) (w w1 : world) (r : outcome unit) :
  initialize constructor arguments w = (r, w1) →
  match r with
  | Raise _ =>
      ∀ t, class_hasattr w1 t "_initialized"
           = class_hasattr w t "_initialized"
  | Return _ =>
      ∃ cls ref rest,
        complete_arguments (fn_spec constructor) arguments
        = Return (VInst cls ref :: rest)
        ∧ class_hasattr w1 cls "_initialized" = true
  end.
Proof.
  unfold initialize.
  destruct (complete_arguments _ _) as [[|receiver rest]|] eqn:Hcomplete;
    [by intros [= <- <-] | | by intros [= <- <-]].
  set (c0 := Composer (Object_init receiver) w).
  destruct (bind _ _ c0) as [r' c2] eqn:Hbind. intros [= <- <-].
  destruct r' as [[]|e].
  - apply bind_Return in Hbind as ([] & c1 & Hloop & Hfinalize).
    pose proof (add_arguments_identity _ _ _ _ _ Hloop)
      as [[= Hobj Htype _] _].
    assert (∃ cls ref, receiver = VInst cls ref) as (cls & ref & ->).
    { unfold finalize in Hfinalize.
      apply bind_Return in Hfinalize as ([] & c3 & Htostring & Hmark).
      apply setattr_type_Return in Hmark as (cls & ref & Hobj3).
      exists cls, ref. rewrite <- Hobj, <- Hobj3. 
      unfold add_tostring in Htostring.
      destruct (hasattr_type _ _); [|by injection Htostring as <-].
      by apply setattr_type_identity in Htostring as [= -> _ _]. }
    exists cls, ref, rest. split; [done|].
    apply finalized_initialized.
    by apply (finalize_finalizes c1 c2 cls ref).
  - intros t. 
    apply bind_Raise in Hbind as [Hloop|([] & c1 & Hloop & Hfinalize)].
    + by apply (add_arguments_marked t) in Hloop.
    + apply (add_arguments_marked t) in Hloop. simpl in Hloop.
      rewrite <- Hloop. unfold finalize in Hfinalize.
      apply bind_Raise in Hfinalize as [Hraise|([] & c3 & Htostring & Hmark)].
      * unfold add_tostring in Hraise.
        destruct (hasattr_type _ _); [|done].
        by apply setattr_type_Raise in Hraise as ->.
      * apply setattr_type_Raise in Hmark as ->.
        unfold add_tostring in Htostring.
        destruct (hasattr_type _ _); [|by injection Htostring as <-].
        by apply (setattr_type_marked t) in Htostring.
Qed.

Lemma initialized_only_by_success_witness :
  (initialize Triple_init [VInst Triple 0; VInt 1; VStr "two"; VInt 3]
     fresh).1
  = Raise (ArgumentTypeError "__init__" "y" [AType int_t] str_t)
  ∧ class_hasattr
      (initialize Triple_init [VInst Triple 0; VInt 1; VStr "two"; VInt 3]
         fresh).2 Triple "_initialized"
    = class_hasattr fresh Triple "_initialized".
Proof.
  assert (initialize Triple_init [VInst Triple 0; VInt 1; VStr "two"; VInt 3]
            fresh
          = (Raise (ArgumentTypeError "__init__" "y" [AType int_t] str_t),
             (initialize Triple_init
                [VInst Triple 0; VInt 1; VStr "two"; VInt 3] fresh).2))
    as Hrun by (vm_compute; reflexivity).
  split; [exact (f_equal fst Hrun)|].
  exact (initialized_only_by_success Triple_init
           [VInst Triple 0; VInt 1; VStr "two"; VInt 3] fresh _ _ Hrun
           Triple).
Defined.

(** ** Classes derived from an initialized class *)

Lemma class_hasattr_ancestor w cls ancestor a :
  ancestor ∈ tmro cls → is_Some (namespace w ancestor !! a) →
  class_hasattr w cls a = true.
Proof.
  intros Hin Hsome. unfold class_hasattr. apply existsb_exists.
  exists ancestor. split.
  - apply list_elem_of_In. by apply elem_of_cons; right.
  - by apply bool_decide_eq_true_2.
Qed.

Lemma attached_initialized spec c pairs :
  initialized c = true → attached spec c pairs = pairs.
Proof.
  intros Hinit. unfold attached, attached_name. rewrite Hinit. simpl.
  induction pairs as [|[n v] pairs IH]; [done|].
  rewrite fmap_cons. simpl. by f_equal.
Qed.

(** X14: the mark of an initialized class is inherited: the first
    construction of an instance of a class with an ancestor that holds
    [_initialized] installs no capability, it writes no class attribute
    but those of [finalize], and when it returns every field, a private
    one included, is on the instance under its plain name. *)
Theorem initialized_ancestor_skips_installation (constructor : function)
    (arguments : list val) (w w1 : world) (r : outcome unit)
    (cls : pytype) (ref : nat) (rest : list val) (ancestor : string) :
  let spec := fn_spec constructor in
  complete_arguments spec arguments = Return (VInst cls ref :: rest) →
  ancestor ∈ tmro cls →
  is_Some (namespace w ancestor !! "_initialized") →
  initialize constructor arguments w = (r, w1) →
  (∀ k a, a ∉ finalize_attributes →
          namespace w1 k !! a = namespace w k !! a)
  ∧ (r = Return () →
     default ∅ (instances w1 !! ref)
     = assign (default ∅ (instances w !! ref))
         (zip (drop 1 (args spec)) rest)).
Proof.
  intros spec Hcomplete Hin Hmark Hrun.
  unfold initialize in Hrun. fold spec in Hrun. rewrite Hcomplete in Hrun.
  set (c0 := Composer (Object_init (VInst cls ref)) w) in Hrun.
  assert (initialized c0 = true) as Hinit
      by by apply (class_hasattr_ancestor w cls ancestor).
  destruct (bind _ _ c0) as [r' c2] eqn:Hbind. injection Hrun as -> <-.
  unfold bind in Hbind.
  destruct (add_arguments spec _ c0) as [[[]|e] c1] eqn:Hloop.
  - pose proof (add_arguments_classes _ _ _ _ _ Hinit Hloop) as [Hsame _].
    split.
    + intros k a Ha.
      assert (namespace (globals c2) k !! a = namespace (globals c1) k !! a)
        as ->.
      { revert Hbind. apply (finalize_frame (λ c, namespace (globals c) k !! a)).
        intros b v Hb. apply setattr_type_other. by intros ->. }
      unfold namespace. by rewrite Hsame.
    + intros _. apply finalize_insts in Hbind.
      apply (add_arguments_attached spec _ c0 c1 cls ref eq_refl) in Hloop
        as (_ & _ & _ & Hthis).
      unfold insts in Hbind, Hthis. rewrite Hbind, Hthis.
      by rewrite attached_initialized.
  - injection Hbind as <- <-.
    pose proof (add_arguments_classes _ _ _ _ _ Hinit Hloop) as [Hsame _].
    split; [|done]. intros k a _. unfold namespace. by rewrite Hsame.
Qed.

Lemma initialized_ancestor_skips_installation_witness :
  let w := (initialize Point_init [VInst Point 0; VInt 3] fresh).2 in
  let w1 := (initialize Pixel_init [VInst Pixel 1; VInt 4; VInt 5] w).2 in
  namespace w1 "Pixel" !! "_varnumber" = None
  ∧ default ∅ (instances w1 !! 1%nat)
    = assign (default ∅ (instances w !! 1%nat))
        [("x", VInt 4); ("shade", VInt 5)].
Proof.
  intros w w1.
  assert ("Point" ∈ tmro Pixel) as Hin by compute_done.
  assert (is_Some (namespace w "Point" !! "_initialized")) as Hmark
      by (vm_compute; eauto).
  assert ("_varnumber" ∉ finalize_attributes) as Hother by compute_done.
  assert (initialize Pixel_init [VInst Pixel 1; VInt 4; VInt 5] w
          = (Return (), w1)) as Hrun by (vm_compute; reflexivity).
  destruct (initialized_ancestor_skips_installation Pixel_init
              [VInst Pixel 1; VInt 4; VInt 5] w w1 (Return ()) Pixel 1
              [VInt 4; VInt 5] "Point" eq_refl Hin Hmark Hrun)
    as [Hclasses Hfields].
  split; [exact (Hclasses "Pixel" "_varnumber" Hother) | exact (Hfields eq_refl)].
Defined.

(** ** Keywords the composer does not know *)

Lemma filter_none {A} (P : A → Prop) `{∀ x, Decision (P x)} (l : list A) :
  (∀ x, x ∈ l → ¬ P x) → filter P l = [].
Proof.
  induction l as [|a l IH]; intros Hnone; [done|].
  rewrite filter_cons. destruct (decide (P a)) as [Ha|_].
  - exfalso. apply (Hnone a); [left | done].
  - apply IH. intros x Hx. apply Hnone. by right.
Qed.

Lemma no_uniques (keywords claimed : gset string) :
  (∀ k, k ∈ local_incompatible → k ∉ keywords) →
  keywords ∩ list_to_set uniques ∩ claimed = ∅.
Proof.
  intros Hnone. apply set_eq. intros t. split; [|by intros ?%not_elem_of_empty].
  intros [[Ht Hu%elem_of_list_to_set]%elem_of_intersection _]%elem_of_intersection.
  exfalso. by apply (Hnone t); [apply uniques_local_incompatible|].
Qed.

(** X15: the keywords of a field are not checked against [all_keywords]:
    a field whose keywords hold none of [private], [boolean], [number],
    [string], [container] and [compare], whatever else they hold, is
    accepted; its keywords are recorded on the object, no class is
    written and the value is assigned under the plain name. *)
Theorem unrecognised_keywords_ignored (argument : Argument) (c : composer)
    (cls : pytype) (ref : nat) :
  obj (this c) = VInst cls ref →
  (∀ k, k ∈ local_incompatible → k ∉ arg_keywords argument) →
  add_argument argument c
  = (Return (),
     set_instances
       (<[ref := <[arg_name argument := arg_value argument]>
                   (default ∅ (insts c !! ref))]> (insts c))
       (set_keywords (obj_keywords (this c) ∪ arg_keywords argument) c)).
Proof.
  intros Hobj Hnone. destruct c as [[o t n claimed] w]. simpl in Hobj. subst o.
  unfold add_argument, bind, check_consistency.
  rewrite filter_none by (intros k Hk%elem_of_elements Hin; by apply (Hnone k)).
  rewrite andb_false_r. cbn [this obj_keywords].
  rewrite no_uniques by done.
  rewrite (bool_decide_eq_true_2 (∅ = ∅)) by done. cbn [negb].
  assert (∀ k, k ∈ local_incompatible →
               bool_decide (k ∈ arg_keywords argument) = false) as Hoff.
  { intros k Hk. apply bool_decide_eq_false_2. by apply Hnone. }
  destruct (negb _); [|done].
  unfold install, when_keyword, bind.
  rewrite !Hoff by compute_done. done.
Qed.

Lemma unrecognised_keywords_ignored_witness :
  add_argument (field "flag" "bolean nonable") first_point
  = (Return (),
     set_instances {[ 0%nat := {[ "flag" := VBool true ]} ]}
       (set_keywords {[ "bolean"; "nonable" ]} first_point)).
Proof.
  assert (∀ k, k ∈ local_incompatible →
               k ∉ arg_keywords (field "flag" "bolean nonable")) as Hnone.
  { intros k Hk. unfold local_incompatible in Hk.
    repeat (apply elem_of_cons in Hk as [->|Hk]);
      try (by apply elem_of_nil in Hk); compute_done. }
  etrans; [exact (unrecognised_keywords_ignored
                    (field "flag" "bolean nonable") first_point Point 0
                    eq_refl Hnone)|].
  vm_compute. reflexivity.
Defined.

(** ** The field behind the installed methods *)

Lemma setattr_type_lookup a v c c' cls ref :
  obj (this c) = VInst cls ref →
  setattr_type a v c = (Return (), c') →
  namespace (globals c') (tname cls) !! a = Some v.
Proof.
  unfold setattr_type. intros ->. intros [= <-].
  unfold set_classes. simpl. rewrite namespace_update.
  rewrite decide_True by done. apply lookup_insert_eq.
Qed.

Lemma setattr_type_then a v (k : M composer unit) c c' cls ref :
  obj (this c) = VInst cls ref →
  (setattr_type a v ;;; k) c = (Return (), c') →
  ∃ c1, obj (this c1) = VInst cls ref ∧ k c1 = (Return (), c').
Proof.
  intros Hobj H. apply bind_Return in H as ([] & c1 & Hset & H).
  exists c1. split; [|done].
  apply setattr_type_this in Hset. by rewrite Hset.
Qed.

Ltac last_write H :=
  repeat (eapply setattr_type_then in H as (? & ? & H); [|eassumption]);
  eapply setattr_type_lookup in H; eassumption.

Ltac keeps tac :=
  unfold add_tobool, add_tonumber, add_container_methods,
    add_comparison_methods;
  repeat first
    [ apply preserves_ret
    | apply preserves_when_keyword
    | tac
    | apply preserves_bind; [|intros ?] ].

Lemma install_records kw attr argument c a c' cls ref :
  (kw, attr) ∈ backing_fields →
  obj (this c) = VInst cls ref →
  kw ∈ arg_keywords argument →
  install argument c = (Return a, c') →
  namespace (globals c') (tname cls) !! attr = Some (CName (arg_name a)).
Proof.
  intros Hin Hobj Hkw H. unfold install in H.
  set (renamed := if bool_decide _ then _ else _) in H.
  assert (kw ∈ arg_keywords renamed) as Hkw'.
  { unfold renamed. by destruct (bool_decide _). }
  clearbody renamed. clear Hkw.
  change ((when_keyword "boolean" renamed (add_tobool renamed) ;;;
           when_keyword "number" renamed (add_tonumber renamed) ;;;
           when_keyword "string" renamed (register_tostring renamed) ;;;
           when_keyword "container" renamed
             (add_container_methods renamed) ;;;
           when_keyword "compare" renamed
             (add_comparison_methods renamed) ;;;
           ret renamed) c = (Return a, c')) in H.
  apply bind_Return in H as ([] & c1 & H1 & H).
  apply bind_Return in H as ([] & c2 & H2 & H).
  apply bind_Return in H as ([] & c3 & H3 & H).
  apply bind_Return in H as ([] & c4 & H4 & H).
  apply bind_Return in H as ([] & c5 & H5 & H).
  injection H as <- <-.
  assert (this c1 = this c) as Hthis1.
  { revert H1. keeps ltac:(apply setattr_type_this). }
  assert (this c2 = this c1) as Hthis2.
  { revert H2. keeps ltac:(apply setattr_type_this). }
  assert (this c3 = this c2) as Hthis3.
  { revert H3. keeps ltac:(apply register_tostring_this). }
  assert (this c4 = this c3) as Hthis4.
  { revert H4. keeps ltac:(apply setattr_type_this). }
  assert (obj (this c1) = VInst cls ref) as Hobj1 by congruence.
  assert (obj (this c2) = VInst cls ref) as Hobj2 by congruence.
  assert (obj (this c3) = VInst cls ref) as Hobj3 by congruence.
  assert (obj (this c4) = VInst cls ref) as Hobj4 by congruence.
  pose (P := λ c : composer, namespace (globals c) (tname cls) !! attr).
  change (P c5 = Some (CName (arg_name renamed))).
  unfold backing_fields in Hin.
  repeat (apply elem_of_cons in Hin as [[= -> ->]|Hin]);
    [| | | |by apply elem_of_nil in Hin].
  - unfold when_keyword in H1. rewrite bool_decide_eq_true_2 in H1 by done.
    assert (P c1 = Some (CName (arg_name renamed))) as <-
        by (unfold add_tobool in H1; last_write H1).
    transitivity (P c4);
      [revert H5|transitivity (P c3);
                   [revert H4|transitivity (P c2); [revert H3|revert H2]]];
      keeps ltac:(first [ apply setattr_type_other; discriminate
                        | apply register_tostring_other; discriminate ]).
  - unfold when_keyword in H2. rewrite bool_decide_eq_true_2 in H2 by done.
    assert (P c2 = Some (CName (arg_name renamed))) as <-
        by (unfold add_tonumber in H2; last_write H2).
    transitivity (P c4); [revert H5|transitivity (P c3); [revert H4|revert H3]];
      keeps ltac:(first [ apply setattr_type_other; discriminate
                        | apply register_tostring_other; discriminate ]).
  - unfold when_keyword in H4. rewrite bool_decide_eq_true_2 in H4 by done.
    assert (P c4 = Some (CName (arg_name renamed))) as <-
        by (unfold add_container_methods in H4; last_write H4).
    revert H5.
    keeps ltac:(first [ apply setattr_type_other; discriminate
                      | apply register_tostring_other; discriminate ]).
  - unfold when_keyword in H5. rewrite bool_decide_eq_true_2 in H5 by done.
    unfold add_comparison_methods in H5. last_write H5.
Qed.

(** X16: on a type that is not marked initialized, a field added with a
    keyword among [boolean], [number], [container] and [compare] is
    recorded on the class of the instance as the field behind the
    installed methods, under the very name that holds its value on the
    instance: the plain name, or the mangled one for a private field. *)
Theorem backing_field_holds_value (argument : Argument) (c c' : composer)
    (cls : pytype) (ref : nat) (kw attr : string) :
  let name :=
    attached_name c (arg_keywords argument) (arg_name argument) in
  (kw, attr) ∈ backing_fields →
  obj (this c) = VInst cls ref →
  initialized c = false →
  kw ∈ arg_keywords argument →
  add_argument argument c = (Return (), c') →
  namespace (globals c') (tname cls) !! attr = Some (CName name)
  ∧ default ∅ (insts c' !! ref) !! name = Some (arg_value argument).
Proof.
  intros name Hin Hobj Hinit Hkw Hadd. split.
  - unfold add_argument in Hadd.
    apply bind_Return in Hadd as ([] & c1 & Hcheck & Hadd).
    apply bind_Return in Hadd as (a & c2 & Hinstall & Hset).
    pose proof (check_consistency_inv _ _ _ _ Hcheck) as (Hid1 & Hinit1 & _).
    fold (initialized c1) in Hinstall. rewrite Hinit1, Hinit in Hinstall.
    simpl in Hinstall.
    pose proof (install_returns _ _ _ _ Hinstall) as ->.
    injection Hid1 as Hobj1 _ Hname1.
    apply (install_records kw attr _ _ _ _ cls ref) in Hinstall;
      [|done|congruence|done].
    apply setattr_obj_classes in Hset. unfold namespace. rewrite Hset.
    unfold namespace in Hinstall. rewrite Hinstall. do 2 f_equal.
    unfold name, attached_name, installed. rewrite Hinit. simpl.
    destruct (bool_decide _); simpl; by rewrite ?Hname1.
  - apply add_argument_inv in Hadd as (_ & _ & cls' & ref' & Hobj' & ->).
    rewrite Hobj in Hobj'. injection Hobj' as <- <-.
    rewrite lookup_insert_eq. simpl. apply lookup_insert_eq.
Qed.

Lemma backing_field_holds_value_witness :
  let c' := (add_argument (field "x" "private compare") first_point).2 in
  namespace (globals c') "Point" !! "_varcmp" = Some (CName "_Point__x")
  ∧ default ∅ (insts c' !! 0%nat) !! "_Point__x" = Some (VBool true).
Proof.
  intros c'.
  assert (("compare", "_varcmp") ∈ backing_fields) as Hin by compute_done.
  assert ("compare" ∈ arg_keywords (field "x" "private compare")) as Hkw
      by compute_done.
  assert (add_argument (field "x" "private compare") first_point
          = (Return (), c')) as Hadd by (vm_compute; reflexivity).
  exact (backing_field_holds_value (field "x" "private compare")
           first_point c' Point 0 "compare" "_varcmp" Hin eq_refl eq_refl
           Hkw Hadd).
Defined.

(** ** The fields of the string representation *)

Lemma find_varstr_Some w ks k v :
  find_varstr w ks = Some (k, v) →
  k ∈ ks ∧ namespace w k !! "_varstr" = Some v.
Proof.
  induction ks as [|k' ks IH]; [done|]. simpl.
  destruct (namespace w k' !! "_varstr") as [v'|] eqn:Hk'.
  - intros [= <- <-]. split; [left | done].
  - intros [Hin Hv]%IH. split; [by right | done].
Qed.

Lemma varstr_ext w w' cls :
  (∀ k, namespace w' k !! "_varstr" = namespace w k !! "_varstr") →
  varstr w' cls = varstr w cls ∧ (own_varstr w cls → own_varstr w' cls).
Proof.
  intros Hsame. split.
  - unfold varstr. by rewrite Hsame.
  - intros Hown k Hk Hne. rewrite Hsame. by apply Hown.
Qed.

Lemma register_tostring_appends argument c c' cls ref :
  obj (this c) = VInst cls ref → obj_type (this c) = cls →
  own_varstr (globals c) cls →
  register_tostring argument c = (Return (), c') →
  own_varstr (globals c') cls
  ∧ varstr (globals c') cls = (varstr (globals c) cls ++ [arg_name argument])%list.
Proof.
  intros Hobj Htype Hown. unfold register_tostring, hasattr_type, setattr_type.
  rewrite Htype, Hobj.
  assert (∀ l, let c1 := set_classes
                           (update_class (globals c) (tname cls) "_varstr"
                              (CNames l)) c in
               own_varstr (globals c1) cls ∧ varstr (globals c1) cls = l)
    as Hwrite.
  { intros l c1. split.
    - intros k Hk Hne. unfold c1, set_classes. simpl.
      rewrite namespace_update. rewrite decide_False by done. by apply Hown.
    - unfold varstr, c1, set_classes. simpl. rewrite namespace_update.
      rewrite decide_True by done. by rewrite lookup_insert_eq. }
  destruct (class_hasattr (globals c) cls "_varstr") eqn:Hhas; simpl.
  - unfold varstr.
    destruct (namespace (globals c) (tname cls) !! "_varstr") as [v|] eqn:Hv.
    + destruct v as [| |l| |]; intros [= <-]. apply Hwrite.
    + destruct (find_varstr _ (tmro cls)) as [[k v]|] eqn:Hfind; [|done].
      apply find_varstr_Some in Hfind as [Hk Hkv].
      destruct (decide (k = tname cls)) as [->|Hne]; [congruence|].
      rewrite Hown in Hkv; done.
  - intros [= <-].
    assert (namespace (globals c) (tname cls) !! "_varstr" = None) as Hv.
    { unfold class_hasattr in Hhas. simpl in Hhas.
      apply orb_false_iff in Hhas as [Hhead _].
      apply bool_decide_eq_false_1 in Hhead.
      by apply eq_None_not_Some. }
    unfold varstr at 2. rewrite Hv. apply Hwrite.
Qed.

Lemma install_varstr argument c a c' cls ref :
  obj (this c) = VInst cls ref → obj_type (this c) = cls →
  own_varstr (globals c) cls →
  install argument c = (Return a, c') →
  own_varstr (globals c') cls
  ∧ varstr (globals c') cls
    = (varstr (globals c) cls
       ++ if bool_decide ("string" ∈ arg_keywords argument)
          then [arg_name a] else [])%list.
Proof.
  intros Hobj Htype Hown H. unfold install in H.
  set (renamed := if bool_decide _ then _ else _) in H.
  assert (arg_keywords renamed = arg_keywords argument) as Hkw.
  { unfold renamed. by destruct (bool_decide _). }
  rewrite <- Hkw. clearbody renamed. clear Hkw.
  change ((when_keyword "boolean" renamed (add_tobool renamed) ;;;
           when_keyword "number" renamed (add_tonumber renamed) ;;;
           when_keyword "string" renamed (register_tostring renamed) ;;;
           when_keyword "container" renamed
             (add_container_methods renamed) ;;;
           when_keyword "compare" renamed
             (add_comparison_methods renamed) ;;;
           ret renamed) c = (Return a, c')) in H.
  apply bind_Return in H as ([] & c1 & H1 & H).
  apply bind_Return in H as ([] & c2 & H2 & H).
  apply bind_Return in H as ([] & c3 & H3 & H).
  apply bind_Return in H as ([] & c4 & H4 & H).
  apply bind_Return in H as ([] & c5 & H5 & H).
  injection H as <- <-.
  assert (this c1 = this c) as Hthis1.
  { revert H1. keeps ltac:(apply setattr_type_this). }
  assert (this c2 = this c1) as Hthis2.
  { revert H2. keeps ltac:(apply setattr_type_this). }
  pose (P := λ (k : string) (c : composer),
               namespace (globals c) k !! "_varstr").
  assert (∀ k, P k c1 = P k c) as Hsame1.
  { intros k. revert H1.
    keeps ltac:(apply setattr_type_other; discriminate). }
  assert (∀ k, P k c2 = P k c1) as Hsame2.
  { intros k. revert H2.
    keeps ltac:(apply setattr_type_other; discriminate). }
  assert (∀ k, P k c4 = P k c3) as Hsame4.
  { intros k. revert H4.
    keeps ltac:(apply setattr_type_other; discriminate). }
  assert (∀ k, P k c5 = P k c4) as Hsame5.
  { intros k. revert H5.
    keeps ltac:(apply setattr_type_other; discriminate). }
  unfold P in Hsame1, Hsame2, Hsame4, Hsame5. clear P.
  apply (varstr_ext _ _ cls) in Hsame1 as [Hv1 Hown1].
  apply (varstr_ext _ _ cls) in Hsame2 as [Hv2 Hown2].
  apply (varstr_ext _ _ cls) in Hsame4 as [Hv4 Hown4].
  apply (varstr_ext _ _ cls) in Hsame5 as [Hv5 Hown5].
  rewrite Hv5, Hv4, <- Hv1, <- Hv2.
  assert (own_varstr (globals c3) cls
          ∧ varstr (globals c3) cls
            = (varstr (globals c2) cls
               ++ if bool_decide ("string" ∈ arg_keywords renamed)
                  then [arg_name renamed] else [])%list) as [Hown3 Hv3].
  { unfold when_keyword in H3. destruct (bool_decide _).
    - apply (register_tostring_appends _ _ _ cls ref) in H3;
        [done|congruence|congruence|auto].
    - injection H3 as <-. rewrite app_nil_r. auto. }
  auto.
Qed.

Lemma add_argument_varstr argument c c' cls ref :
  obj (this c) = VInst cls ref → obj_type (this c) = cls →
  initialized c = false →
  own_varstr (globals c) cls →
  add_argument argument c = (Return (), c') →
  own_varstr (globals c') cls
  ∧ varstr (globals c') cls
    = (varstr (globals c) cls
       ++ if bool_decide ("string" ∈ arg_keywords argument)
          then [attached_name c (arg_keywords argument) (arg_name argument)]
          else [])%list.
Proof.
  intros Hobj Htype Hinit Hown Hadd. unfold add_argument in Hadd.
  apply bind_Return in Hadd as ([] & c1 & Hcheck & Hadd).
  apply bind_Return in Hadd as (a & c2 & Hinstall & Hset).
  pose proof (check_consistency_inv _ _ _ _ Hcheck) as (Hid1 & Hinit1 & _).
  apply check_consistency_unchanged in Hcheck as [_ Hglobals1].
  fold (initialized c1) in Hinstall. rewrite Hinit1, Hinit in Hinstall.
  simpl in Hinstall.
  pose proof (install_returns _ _ _ _ Hinstall) as ->.
  injection Hid1 as Hobj1 Htype1 Hname1.
  apply (install_varstr _ _ _ _ cls ref) in Hinstall as [Hown2 Hv2];
    [|congruence|congruence|by rewrite Hglobals1].
  apply setattr_obj_classes in Hset.
  assert (∀ k, namespace (globals c') k !! "_varstr"
               = namespace (globals c2) k !! "_varstr") as Hsame
      by (intros k; unfold namespace; by rewrite Hset).
  apply (varstr_ext _ _ cls) in Hsame as [-> Hown'].
  split; [auto|]. rewrite Hv2, Hglobals1. f_equal.
  destruct (bool_decide _); [|done]. f_equal.
  unfold attached_name, installed. rewrite Hinit. simpl.
  destruct (bool_decide _); simpl; by rewrite ?Hname1.
Qed.

Lemma add_arguments_varstr spec pairs c c' cls ref :
  obj (this c) = VInst cls ref → obj_type (this c) = cls →
  initialized c = false →
  own_varstr (globals c) cls →
  add_arguments spec pairs c = (Return (), c') →
  own_varstr (globals c') cls
  ∧ varstr (globals c') cls
    = (varstr (globals c) cls
       ++ (attached spec c (string_fields spec pairs)).*1)%list.
Proof.
  revert c. induction pairs as [|[name value] pairs IH];
    intros c Hobj Htype Hinit Hown.
  - intros [= <-]. by rewrite app_nil_r.
  - simpl.
    destruct (Argument_init _ _ _) as [argument|e] eqn:Hargument; [|done].
    apply Argument_init_Return in Hargument as (Hname & _ & Hkeywords).
    fold (declared_keywords spec name) in Hkeywords.
    intros ([] & c1 & Hadd & Hrest)%bind_Return.
    pose proof (add_argument_inv _ _ _ _ Hadd) as (Hid & Hinit1 & _).
    apply (add_argument_varstr _ _ _ cls ref) in Hadd as [Hown1 Hv1];
      try done.
    pose proof Hid as [= Hobj1 Htype1 _].
    apply IH in Hrest as [Hown' Hv']; [|congruence..|done].
    split; [done|]. rewrite Hv', Hv1, <- app_assoc. f_equal.
    unfold string_fields. rewrite filter_cons. simpl.
    rewrite Hkeywords, Hname.
    assert (attached spec c1 (filter (λ p, "string" ∈ declared_keywords spec p.1)
                                pairs)
            = attached spec c (filter (λ p, "string" ∈ declared_keywords spec p.1)
                                 pairs)) as ->.
    { unfold attached. apply list_fmap_ext. intros i [n v] _. simpl.
      by rewrite (attached_name_state c c1). }
    destruct (decide _) as [Hs|Hs];
      [rewrite bool_decide_eq_true_2 by done
      |rewrite bool_decide_eq_false_2 by done]; done.
Qed.

(** X17: the initialization that returns, on a type that is not marked
    initialized and has no ancestor with a list [_varstr], extends the
    list [_varstr] of the class with the names of the fields declared
    with [string], in the order of the parameters and under the names
    attached on the instance; the list is extended and never reset, and
    with a name on it the class gets [__str__]. *)
Theorem varstr_lists_string_fields (constructor : function)
    (arguments : list val) (w w1 : world) (cls : pytype) (ref : nat)
    (rest : list val) :
  let spec := fn_spec constructor in
  let c0 := Composer (Object_init (VInst cls ref)) w in
  complete_arguments spec arguments = Return (VInst cls ref :: rest) →
  class_hasattr w cls "_initialized" = false →
  own_varstr w cls →
  initialize constructor arguments w = (Return (), w1) →
  varstr w1 cls
  = (varstr w cls
     ++ (attached spec c0
           (string_fields spec (zip (drop 1 (args spec)) rest))).*1)%list
  ∧ (varstr w1 cls ≠ [] →
     namespace w1 (tname cls) !! "__str__" = Some (CMethod _str)).
Proof.
  intros spec c0 Hcomplete Hinit Hown Hrun.
  pose proof (initialize_finalized _ _ _ _ _ _ _ Hcomplete Hrun)
    as (_ & _ & Hstr).
  split.
  - unfold initialize in Hrun. fold spec in Hrun. rewrite Hcomplete in Hrun.
    fold c0 in Hrun.
    destruct (bind _ _ c0) as [r c2] eqn:Hbind. injection Hrun as -> <-.
    apply bind_Return in Hbind as ([] & c1 & Hloop & Hfinalize).
    apply (add_arguments_varstr spec _ c0 c1 cls ref) in Hloop as [_ Hlist];
      try done.
    transitivity (varstr (globals c1) cls); [|exact Hlist].
    unfold varstr.
    assert (namespace (globals c2) (tname cls) !! "_varstr"
            = namespace (globals c1) (tname cls) !! "_varstr") as ->; [|done].
    revert Hfinalize.
    apply (finalize_frame (λ c, namespace (globals c) (tname cls) !! "_varstr")).
    intros b v Hb. apply setattr_type_other. intros <-. revert Hb.
    compute_done.
  - intros Hsome. apply Hstr. unfold class_hasattr. simpl.
    apply orb_true_iff. left. apply bool_decide_eq_true_2.
    unfold varstr in Hsome.
    by destruct (namespace w1 (tname cls) !! "_varstr").
Qed.

Lemma varstr_lists_string_fields_witness :
  let w1 := (initialize Point_init [VInst Point 0; VInt 3] fresh).2 in
  varstr w1 Point = ["label"]
  ∧ namespace w1 "Point" !! "__str__" = Some (CMethod _str).
Proof.
  intros w1.
  assert (own_varstr fresh Point) as Hown by (intros k _ _; reflexivity).
  assert (initialize Point_init [VInst Point 0; VInt 3] fresh
          = (Return (), w1)) as Hrun by (vm_compute; reflexivity).
  destruct (varstr_lists_string_fields Point_init [VInst Point 0; VInt 3]
              fresh w1 Point 0 [VInt 3; VStr "p"] eq_refl eq_refl Hown Hrun)
    as [Hlist Hstr].
  split; [exact Hlist|]. apply Hstr. vm_compute. discriminate.
Defined.

(** ** Adding a field that passes the checks *)

Lemma succeeds_ret {A} (a : A) : succeeds (ret a).
Proof. intros c Hc. by exists a, c. Qed.

Lemma succeeds_bind {A B} (m : M composer A) (k : A → M composer B) :
  succeeds m → (∀ a, succeeds (k a)) → succeeds (bind m k).
Proof.
  intros Hm Hk c Hc. unfold bind.
  destruct (Hm c Hc) as (a & c1 & -> & Hc1 & Hthis1).
  destruct (Hk a c1 Hc1) as (b & c2 & -> & Hc2 & Hthis2).
  exists b, c2. split_and!; [done | done | congruence].
Qed.

Lemma succeeds_when_keyword kw argument m :
  succeeds m → succeeds (when_keyword kw argument m).
Proof.
  intros Hm. unfold when_keyword. case_bool_decide; [done|].
  apply succeeds_ret.
Qed.

Lemma varstr_lists_update w e i k a v :
  (a = "_varstr" → ∃ l, v = CNames l) →
  varstr_lists w → varstr_lists (World e (update_class w k a v) i).
Proof.
  intros Hv Hw k' v'. rewrite namespace_update.
  destruct (decide (k = k')) as [->|]; [|apply Hw].
  destruct (decide (a = "_varstr")) as [->|Hne].
  - rewrite lookup_insert_eq. intros [= <-]. by apply Hv.
  - rewrite lookup_insert_ne by done. apply Hw.
Qed.

Lemma setattr_type_succeeds a v :
  (a = "_varstr" → ∃ l, v = CNames l) → succeeds (setattr_type a v).
Proof.
  intros Hv c [(cls & ref & Hobj) Hlists]. unfold setattr_type. rewrite Hobj.
  eexists _, _. split; [done|]. split; [|done]. split; [by exists cls, ref|].
  by apply varstr_lists_update.
Qed.

Lemma find_varstr_hasattr w ks :
  existsb (λ k, bool_decide (is_Some (namespace w k !! "_varstr"))) ks = true →
  ∃ k v, find_varstr w ks = Some (k, v)
         ∧ namespace w k !! "_varstr" = Some v.
Proof.
  induction ks as [|k ks IH]; [done|]. simpl.
  destruct (namespace w k !! "_varstr") as [v|] eqn:Hk.
  - intros _. by exists k, v.
  - rewrite bool_decide_eq_false_2 by (by intros [? ?]). simpl. apply IH.
Qed.

Lemma register_tostring_succeeds argument :
  succeeds (register_tostring argument).
Proof.
  intros c Hc. unfold register_tostring.
  destruct (hasattr_type "_varstr" c) eqn:Hhas; cbn [negb].
  - destruct Hc as [(cls & ref & Hobj) Hlists].
    apply find_varstr_hasattr in Hhas as (k & v & -> & Hv).
    destruct (Hlists k v Hv) as [l ->].
    eexists _, _. split; [done|]. split; [|done].
    split; [by exists cls, ref|].
    apply varstr_lists_update; [|done]. intros _. eauto.
  - apply setattr_type_succeeds; [|done]. intros _. eauto.
Qed.

Lemma setattr_obj_succeeds name value : succeeds (setattr_obj name value).
Proof.
  intros c [(cls & ref & Hobj) Hlists]. unfold setattr_obj. rewrite Hobj.
  eexists _, _. split; [done|]. split; [|done]. split; [by exists cls, ref|].
  done.
Qed.

Lemma install_succeeds argument : succeeds (install argument).
Proof.
  intros c. unfold install.
  set (renamed := if bool_decide _ then _ else _). clearbody renamed.
  revert c.
  change (succeeds
            (when_keyword "boolean" renamed (add_tobool renamed) ;;;
             when_keyword "number" renamed (add_tonumber renamed) ;;;
             when_keyword "string" renamed (register_tostring renamed) ;;;
             when_keyword "container" renamed
               (add_container_methods renamed) ;;;
             when_keyword "compare" renamed
               (add_comparison_methods renamed) ;;;
             ret renamed)).
  unfold add_tobool, add_tonumber, add_container_methods,
    add_comparison_methods.
  repeat first
    [ apply succeeds_ret
    | apply succeeds_when_keyword
    | apply register_tostring_succeeds
    | apply setattr_type_succeeds; discriminate
    | apply succeeds_bind; [|intros ?] ].
Qed.

(** A field that passes the consistency check is added: the keywords of
    the object grow by those of the field. *)
Lemma add_argument_succeeds argument c :
  "local" ∉ arg_keywords argument →
  arg_keywords argument ∩ list_to_set uniques ∩ obj_keywords (this c) = ∅ →
  writable c →
  ∃ c', add_argument argument c = (Return (), c')
        ∧ writable c'
        ∧ obj_keywords (this c') = obj_keywords (this c) ∪ arg_keywords argument.
Proof.
  intros Hlocal Hfree Hc. unfold add_argument, bind.
  rewrite check_consistency_ok by done.
  set (c1 := set_keywords _ c).
  assert (writable c1) as Hc1 by done.
  assert (succeeds (λ c, if negb (hasattr_type "_initialized" c)
                         then install argument c
                         else (Return argument, c))) as Hinstall.
  { intros c2 Hc2. destruct (negb _); [by apply install_succeeds|].
    by exists argument, c2. }
  destruct (Hinstall c1 Hc1) as (a & c2 & -> & Hc2 & Hthis2).
  destruct (setattr_obj_succeeds (arg_name a) (arg_value a) c2 Hc2)
    as ([] & c3 & -> & Hc3 & Hthis3).
  exists c3. split_and!; [done | done |]. by rewrite Hthis3, Hthis2.
Qed.

Lemma varstr_lists_fresh : varstr_lists fresh.
Proof.
  intros k v. unfold namespace. simpl. rewrite lookup_empty. simpl.
  by rewrite lookup_empty.
Qed.

(** C4 (amended): when two fields carry the same keyword of [uniques],
    adding the first returns, and the keywords of the object grow by those
    of the field, provided the field does not carry [local], none of its
    unique keywords is claimed yet, the object wraps an instance of a
    user-defined class and every [_varstr] is a list; adding the second,
    in that state or any later state of the object, raises an
    [AnnotationError] that names the keyword and leaves the state as it
    was; a check that raises leaves the accumulated keywords as they
    were. *)
Theorem unique_keyword_claimed_once (first second : Argument) (t : string)
    (c : composer) :
  t ∈ uniques → t ∈ arg_keywords first → t ∈ arg_keywords second →
  "local" ∉ arg_keywords first →
  arg_keywords first ∩ list_to_set uniques ∩ obj_keywords (this c) = ∅ →
  writable c →
  ∃ c1,
    add_argument first c = (Return (), c1)
    ∧ obj_keywords (this c1) = obj_keywords (this c) ∪ arg_keywords first
    ∧ (∀ c', obj_keywords (this c1) ⊆ obj_keywords (this c') →
             ∃ error,
               add_argument second c' = (Raise (AnnotationError error), c')
               ∧ t ∈ named error)
    ∧ (∀ argument c0 e c2,
          check_consistency argument c0 = (Raise e, c2) →
          obj_keywords (this c2) = obj_keywords (this c0)).
Proof.
  intros Hu Hfirst Hsecond Hlocal Hfree Hc.
  destruct (add_argument_succeeds first c Hlocal Hfree Hc)
    as (c1 & Hadd & _ & Hkeywords).
  exists c1. split_and!; [done | done | |].
  - intros c' Hlater.
    destruct (check_consistency_used second c' t) as (error & Hraise & Hnamed);
      auto.
    { apply Hlater. rewrite Hkeywords. apply elem_of_union. by right. }
    exists error. split; [|done]. by apply add_argument_raises.
  - intros argument c0 e c2 H. apply check_consistency_state in H. by subst.
Qed.

Lemma unique_keyword_claimed_once_witness :
  ∃ c1,
    add_argument (field "a" "boolean") first_point = (Return (), c1)
    ∧ ∃ error,
        add_argument (field "b" "boolean string") c1
        = (Raise (AnnotationError error), c1)
        ∧ "boolean" ∈ named error.
Proof.
  assert ("boolean" ∈ uniques) as Hu by compute_done.
  assert ("boolean" ∈ arg_keywords (field "a" "boolean")) as Hfirst
      by compute_done.
  assert ("boolean" ∈ arg_keywords (field "b" "boolean string")) as Hsecond
      by compute_done.
  assert ("local" ∉ arg_keywords (field "a" "boolean")) as Hlocal
      by compute_done.
  assert (arg_keywords (field "a" "boolean") ∩ list_to_set uniques
          ∩ obj_keywords (this first_point) = ∅) as Hfree by compute_done.
  assert (writable first_point) as Hc.
  { split; [by exists Point, 0%nat | exact varstr_lists_fresh]. }
  destruct (unique_keyword_claimed_once
              (field "a" "boolean") (field "b" "boolean string") "boolean"
              first_point Hu Hfirst Hsecond Hlocal Hfree Hc)
    as (c1 & Hadd & _ & Hlater & _).
  exists c1. split; [exact Hadd|]. apply Hlater. reflexivity.
Defined.

(** ** The toggle, off and on again *)

(** An offending value at the position of a declared parameter makes the
    arguments check raise. *)
Lemma arguments_check_raises funcname spec arguments k name value a :
  args spec !! k = Some name → arguments !! k = Some value →
  ¬ (k = 0 ∧ name = "self") →
  annotations spec !! name = Some a →
  _type_ok value (_to_tuple a) = false →
  ∃ name' value' a',
    annotations spec !! name' = Some a'
    ∧ _type_ok value' (_to_tuple a') = false
    ∧ arguments_check funcname spec arguments
      = Raise (ArgumentTypeError funcname name' (_to_tuple a')
                 (type_of value')).
Proof.
  intros Hname Hvalue Hself Ha Hbad.
  destruct (positional_pairs_lookup spec arguments k name value)
    as (pairs & Hpairs & Hin); auto.
  destruct (check_positional_raises funcname spec pairs (name, value))
    as ([name' value'] & a' & _ & Ha' & Hbad' & Hraise);
    [done | by exists a |].
  exists name', value', a'. split_and!; auto.
  unfold arguments_check. rewrite Hpairs, Hraise.
  assert (length arguments ≠ 0) by (destruct arguments; naive_solver).
  assert (args spec ≠ ["self"]).
  { intros Heq. rewrite Heq in Hname.
    destruct k as [|[|k]]; simpl in Hname; naive_solver. }
  by rewrite !bool_decide_eq_false_2.
Qed.

Lemma Argument_init_mismatch name value a types keywords :
  scan_annotations (_to_tuple a) = (types, keywords) →
  types ≠ [] → isinstance value types = false →
  ¬ (value = VNone ∧ "nonable" ∈ keywords) →
  Argument_init name value a
  = Raise (ArgumentTypeError "__init__" name (AType <$> types)
             (type_of value)).
Proof.
  intros Hscan Htypes Hinst Hnon. unfold Argument_init. rewrite Hscan.
  set (self := {| arg_name := name; arg_value := value;
                  arg_types := types; arg_keywords := keywords |}).
  destruct (check_type self) as [[]|e] eqn:Hcheck.
  - assert (∃ e, check_type self = Raise e) as [e He]
        by by apply check_type_raises_iff.
    congruence.
  - by apply check_type_Raise in Hcheck as ->.
Qed.

(** The loop stops at a first field that cannot be built. *)
Lemma initialize_first_field constructor arguments w receiver value rest
    name e :
  complete_arguments (fn_spec constructor) arguments
  = Return (receiver :: value :: rest) →
  args (fn_spec constructor) !! 1 = Some name →
  Argument_init name value
    (default (ASingle AOther) (annotations (fn_spec constructor) !! name))
  = Raise e →
  initialize constructor arguments w = (Raise e, w).
Proof.
  intros Hcomplete Hname Hraise. unfold initialize. rewrite Hcomplete.
  destruct (args (fn_spec constructor)) as [|a0 [|n params]]; try done.
  injection Hname as ->. simpl. unfold bind. simpl. by rewrite Hraise.
Qed.

(** The loop stops at a second field that claims what the first
    claimed. *)
Lemma initialize_second_field constructor arguments w cls ref v1 v2 rest
    n1 n2 first second t :
  let spec := fn_spec constructor in
  complete_arguments spec arguments = Return (VInst cls ref :: v1 :: v2 :: rest) →
  args spec !! 1 = Some n1 → args spec !! 2 = Some n2 →
  Argument_init n1 v1 (default (ASingle AOther) (annotations spec !! n1))
  = Return first →
  Argument_init n2 v2 (default (ASingle AOther) (annotations spec !! n2))
  = Return second →
  t ∈ uniques → t ∈ arg_keywords first → t ∈ arg_keywords second →
  "local" ∉ arg_keywords first →
  varstr_lists w →
  ∃ error w',
    initialize constructor arguments w = (Raise (AnnotationError error), w')
    ∧ t ∈ named error.
Proof.
  intros spec Hcomplete Hn1 Hn2 Hfirst Hsecond Hu Ht1 Ht2 Hlocal Hlists.
  unfold initialize. fold spec. rewrite Hcomplete.
  destruct (args spec) as [|a0 [|n1' [|n2' params]]]; try done.
  injection Hn1 as ->. injection Hn2 as ->.
  set (c0 := Composer (Object_init (VInst cls ref)) w).
  destruct (add_argument_succeeds first c0) as (c1 & Hadd & _ & Hkeywords);
    [done | | |].
  { simpl. apply set_eq. intros k. rewrite !elem_of_intersection.
    split; [by intros [_ ?%not_elem_of_empty] | by intros ?%not_elem_of_empty]. }
  { split; [by exists cls, ref | done]. }
  destruct (check_consistency_used second c1 t) as (error & Hraise & Hnamed);
    auto.
  { rewrite Hkeywords. apply elem_of_union. by right. }
  apply add_argument_raises in Hraise.
  exists error, (globals c1). split; [|done].
  simpl. unfold bind. simpl. rewrite Hfirst, Hadd, Hsecond. simpl.
  by rewrite Hraise.
Qed.

(** C2: after [disable()] a wrapped function and a decorated constructor
    are the underlying callable, run as it is: nothing is validated and
    the decorators raise nothing of their own.  After [enable()] the
    toggle is as it was when on, and the next calls are enforced again:
    (1) a value at the position of an annotated parameter, other than a
    leading [self], that fails the annotation makes the wrapped call raise
    [ArgumentTypeError], the body not run; (2) a result that fails the
    return annotation makes it raise [ReturnTypeError]; (3) a first field
    whose value is an instance of none of its types, and not [None] under
    ['nonable'], makes the decorated constructor raise
    [ArgumentTypeError], the body not run; (4) two first fields that claim
    the same keyword of [uniques] make it raise an [AnnotationError]
    naming the keyword, the body not run. *)
Theorem disabled_calls_through (func constructor : function)
    (arguments values : list val) (kwargs : list (string * val))
    (w : world) :
  let off := disable w in
  let on := enable off in
  let spec := fn_spec constructor in
  (strict func arguments kwargs off = fn_body func arguments kwargs off
   ∧ init constructor values kwargs off
     = fn_body constructor values kwargs off)
  ∧ (_enabled on = true ∧ (_enabled w = true → on = w))
  ∧ (∀ k name value a,
        args (fn_spec func) !! k = Some name → arguments !! k = Some value →
        ¬ (k = 0 ∧ name = "self") →
        annotations (fn_spec func) !! name = Some a →
        _type_ok value (_to_tuple a) = false →
        ∃ name' value' a',
          annotations (fn_spec func) !! name' = Some a'
          ∧ _type_ok value' (_to_tuple a') = false
          ∧ strict func arguments kwargs on
            = (Raise (ArgumentTypeError (fn_name func) name' (_to_tuple a')
                        (type_of value')), on))
  ∧ (∀ result w' a,
        arguments_check (fn_name func) (fn_spec func) arguments = Return () →
        fn_body func arguments kwargs on = (Return result, w') →
        annotations (fn_spec func) !! "return" = Some a →
        _type_ok result (_to_tuple a) = false →
        strict func arguments kwargs on
        = (Raise (ReturnTypeError (fn_name func) (_to_tuple a)
                    (type_of result)), w'))
  ∧ (∀ receiver value rest name types keywords,
        complete_arguments spec values = Return (receiver :: value :: rest) →
        args spec !! 1 = Some name →
        scan_annotations
          (_to_tuple (default (ASingle AOther) (annotations spec !! name)))
        = (types, keywords) →
        types ≠ [] → isinstance value types = false →
        ¬ (value = VNone ∧ "nonable" ∈ keywords) →
        init constructor values kwargs on
        = (Raise (ArgumentTypeError "__init__" name (AType <$> types)
                    (type_of value)), on))
  ∧ (∀ cls ref v1 v2 rest n1 n2 first second t,
        complete_arguments spec values
        = Return (VInst cls ref :: v1 :: v2 :: rest) →
        args spec !! 1 = Some n1 → args spec !! 2 = Some n2 →
        Argument_init n1 v1
          (default (ASingle AOther) (annotations spec !! n1))
        = Return first →
        Argument_init n2 v2
          (default (ASingle AOther) (annotations spec !! n2))
        = Return second →
        t ∈ uniques → t ∈ arg_keywords first → t ∈ arg_keywords second →
        "local" ∉ arg_keywords first →
        varstr_lists w →
        ∃ error w',
          init constructor values kwargs on
          = (Raise (AnnotationError error), w')
          ∧ t ∈ named error).
Proof.
  intros off on spec. split_and!; try reflexivity.
  - intros Hon. unfold on, off. by destruct w as [[] ? ?].
  - intros k name value a Hname Hvalue Hself Ha Hbad.
    destruct (arguments_check_raises (fn_name func) (fn_spec func) arguments
                k name value a) as (name' & value' & a' & Ha' & Hbad' & Hraise);
      auto.
    exists name', value', a'. split_and!; auto.
    unfold strict. simpl. by rewrite Hraise.
  - intros result w' a Hcheck Hbody Ha Hbad. unfold strict. simpl.
    rewrite Hcheck, Hbody. unfold return_check. by rewrite Ha, Hbad.
  - intros receiver value rest name types keywords Hcomplete Hname Hscan
      Htypes Hinst Hnon.
    unfold init. simpl.
    by rewrite (initialize_first_field constructor values on receiver value
                  rest name _ Hcomplete Hname
                  (Argument_init_mismatch _ _ _ _ _ Hscan Htypes Hinst Hnon)).
  - intros cls ref v1 v2 rest n1 n2 first second t Hcomplete Hn1 Hn2 Hfirst
      Hsecond Hu Ht1 Ht2 Hlocal Hlists.
    destruct (initialize_second_field constructor values on cls ref v1 v2 rest
                n1 n2 first second t) as (error & w' & Hrun & Hnamed); auto.
    exists error, w'. split; [|done]. unfold init. simpl. by rewrite Hrun.
Qed.

Lemma disabled_calls_through_witness :
  let on := enable (disable fresh) in
  (strict (describe (returns (VStr "five"))) [VStr "5"] [] (disable fresh)
   = (Return (VStr "five"), disable fresh)
   ∧ init Switch_init [VInst Switch 0; VBool true; VBool false] []
       (disable fresh)
     = (Return VNone, disable fresh))
  ∧ (∃ name' value' a',
        annotations describe_spec !! name' = Some a'
        ∧ _type_ok value' (_to_tuple a') = false
        ∧ strict (describe (returns (VStr "five"))) [VStr "5"] [] on
          = (Raise (ArgumentTypeError "describe" name' (_to_tuple a')
                      (type_of value')), on))
  ∧ strict (describe (returns (VInt 5))) [VInt 5] [] on
    = (Raise (ReturnTypeError "describe" [AType str_t] int_t), on)
  ∧ init Switch_init [VInst Switch 0; VInt 1; VBool false] [] on
    = (Raise (ArgumentTypeError "__init__" "on" [AType bool_t] int_t), on)
  ∧ ∃ error w',
      init Switch_init [VInst Switch 0; VBool true; VBool false] [] on
      = (Raise (AnnotationError error), w')
      ∧ "boolean" ∈ named error.
Proof.
  intros on.
  destruct (disabled_calls_through (describe (returns (VStr "five")))
              Switch_init [VStr "5"] [VInst Switch 0; VBool true; VBool false]
              [] fresh) as (Hoff & _ & Harguments & _ & _ & Hconflict).
  destruct (disabled_calls_through (describe (returns (VInt 5)))
              Switch_init [VInt 5] [VInst Switch 0; VInt 1; VBool false]
              [] fresh) as (_ & _ & _ & Hreturn & Htypes & _).
  destruct Hoff as [Hstrict Hinit].
  split_and!.
  - etrans; [exact Hstrict | reflexivity].
  - etrans; [exact Hinit | reflexivity].
  - apply (Harguments 0%nat "n" (VStr "5") (ASingle (AType int_t)));
      [reflexivity | reflexivity | intros [_ H]; discriminate H
      | reflexivity | reflexivity].
  - apply (Hreturn (VInt 5) on (ASingle (AType str_t))); reflexivity.
  - apply (Htypes (VInst Switch 0) (VInt 1) [VBool false] "on" [bool_t]
             {[ "boolean" ]});
      [reflexivity | reflexivity | vm_compute; reflexivity | discriminate
      | reflexivity | intros [H _]; discriminate H].
  - assert ("boolean" ∈ uniques) as Hu by compute_done.
    apply (Hconflict Switch 0%nat (VBool true) (VBool false) [] "on" "armed"
             {| arg_name := "on"; arg_value := VBool true;
                arg_types := [bool_t]; arg_keywords := {[ "boolean" ]} |}
             {| arg_name := "armed"; arg_value := VBool false;
                arg_types := [bool_t]; arg_keywords := {[ "boolean" ]} |}
             "boolean");
      [reflexivity | reflexivity | reflexivity
      | vm_compute; reflexivity | vm_compute; reflexivity
      | exact Hu | compute_done | compute_done | compute_done
      | exact varstr_lists_fresh].
Defined.
